(** * The load/store unit of the instruction-set simulator

    A shallow embedding of [models/cpu/iss/src/lsu.cpp]: the request
    submission logic ([data_req], [data_req_aligned]), the splitting of
    misaligned accesses ([data_misaligned_req], [exec_misaligned]), the
    atomic path ([atomic]), the asynchronous completion ([data_response])
    and the resume actions.

    The LSU talks to collaborators whose code lives elsewhere (pipeline,
    timing model, translator, traces, memory interface).  Each call to one of
    them is recorded as an [event] in a log kept in the simulator state, most
    recent call first; whatever a collaborator answers is an input of the
    embedded function. *)

From Stdlib Require Import ZArith List Bool Lia.
Import ListNotations.
Local Open Scope Z_scope.

(** ** Data model *)

(** Modelled from the spec: the enumeration [vp::io_req_status_e] is declared
    in a header that is not part of the sources at hand.  The memory
    interface answers a submission with one of three outcomes (success,
    permanent rejection, accepted but not complete).  [data_req_aligned]
    returns the literal [0] on success and [exec_misaligned] compares that
    result with [vp::IO_REQ_OK], so [IO_REQ_OK] is the zero value. *)
Inductive io_req_status_e : Type :=
| IO_REQ_OK
| IO_REQ_INVALID
| IO_REQ_PENDING.

Definition status_eqb (a b : io_req_status_e) : bool :=
  match a, b with
  | IO_REQ_OK, IO_REQ_OK => true
  | IO_REQ_INVALID, IO_REQ_INVALID => true
  | IO_REQ_PENDING, IO_REQ_PENDING => true
  | _, _ => false
  end.

(** The values the member [stall_callback] can take: the addresses of the
    five static resume functions of [Lsu]. *)
Inductive stall_callback_t : Type :=
| cb_store_resume
| cb_load_resume
| cb_elw_resume
| cb_load_signed_resume
| cb_load_boxed_resume.

(** The request slot [vp::io_req], with the fields the LSU sets or reads.
    Pointers are byte addresses, opcodes are the integer values of
    [vp::io_req_opcode_e]. *)
Record vp_io_req : Type := mk_io_req {
  req_addr : Z;
  req_size : Z;
  req_is_write : bool;
  req_data : Z;
  req_opcode : Z;
  req_second_data : Z;
  req_initiator : Z;
  req_latency : Z
}.

Definition set_addr (v : Z) (q : vp_io_req) : vp_io_req :=
  mk_io_req v (req_size q) (req_is_write q) (req_data q) (req_opcode q)
            (req_second_data q) (req_initiator q) (req_latency q).

Definition set_size (v : Z) (q : vp_io_req) : vp_io_req :=
  mk_io_req (req_addr q) v (req_is_write q) (req_data q) (req_opcode q)
            (req_second_data q) (req_initiator q) (req_latency q).

Definition set_is_write (v : bool) (q : vp_io_req) : vp_io_req :=
  mk_io_req (req_addr q) (req_size q) v (req_data q) (req_opcode q)
            (req_second_data q) (req_initiator q) (req_latency q).

Definition set_data (v : Z) (q : vp_io_req) : vp_io_req :=
  mk_io_req (req_addr q) (req_size q) (req_is_write q) v (req_opcode q)
            (req_second_data q) (req_initiator q) (req_latency q).

Definition set_opcode (v : Z) (q : vp_io_req) : vp_io_req :=
  mk_io_req (req_addr q) (req_size q) (req_is_write q) (req_data q) v
            (req_second_data q) (req_initiator q) (req_latency q).

Definition set_second_data (v : Z) (q : vp_io_req) : vp_io_req :=
  mk_io_req (req_addr q) (req_size q) (req_is_write q) (req_data q)
            (req_opcode q) v (req_initiator q) (req_latency q).

Definition set_initiator (v : Z) (q : vp_io_req) : vp_io_req :=
  mk_io_req (req_addr q) (req_size q) (req_is_write q) (req_data q)
            (req_opcode q) (req_second_data q) v (req_latency q).

Definition set_latency (v : Z) (q : vp_io_req) : vp_io_req :=
  mk_io_req (req_addr q) (req_size q) (req_is_write q) (req_data q)
            (req_opcode q) (req_second_data q) (req_initiator q) v.

(** The members of [Lsu]: the pending-access record of a split access
    ([misaligned_*]), the selected resume action with its register and
    width ([stall_*]), the wait-for-event flag and the request slot. *)
Record Lsu : Type := mkLsu {
  misaligned_size : Z;
  misaligned_data : Z;
  misaligned_addr : Z;
  misaligned_is_write : bool;
  elw_stalled : bool;
  stall_callback : stall_callback_t;
  stall_reg : Z;
  stall_size : Z;
  io_req : vp_io_req
}.

Definition set_misaligned_size (v : Z) (l : Lsu) : Lsu :=
  mkLsu v (misaligned_data l) (misaligned_addr l) (misaligned_is_write l)
        (elw_stalled l) (stall_callback l) (stall_reg l) (stall_size l)
        (io_req l).

Definition set_misaligned_data (v : Z) (l : Lsu) : Lsu :=
  mkLsu (misaligned_size l) v (misaligned_addr l) (misaligned_is_write l)
        (elw_stalled l) (stall_callback l) (stall_reg l) (stall_size l)
        (io_req l).

Definition set_misaligned_addr (v : Z) (l : Lsu) : Lsu :=
  mkLsu (misaligned_size l) (misaligned_data l) v (misaligned_is_write l)
        (elw_stalled l) (stall_callback l) (stall_reg l) (stall_size l)
        (io_req l).

Definition set_misaligned_is_write (v : bool) (l : Lsu) : Lsu :=
  mkLsu (misaligned_size l) (misaligned_data l) (misaligned_addr l) v
        (elw_stalled l) (stall_callback l) (stall_reg l) (stall_size l)
        (io_req l).

Definition set_elw_stalled (v : bool) (l : Lsu) : Lsu :=
  mkLsu (misaligned_size l) (misaligned_data l) (misaligned_addr l)
        (misaligned_is_write l) v (stall_callback l) (stall_reg l)
        (stall_size l) (io_req l).

Definition set_stall_callback (v : stall_callback_t) (l : Lsu) : Lsu :=
  mkLsu (misaligned_size l) (misaligned_data l) (misaligned_addr l)
        (misaligned_is_write l) (elw_stalled l) v (stall_reg l)
        (stall_size l) (io_req l).

Definition set_stall_reg (v : Z) (l : Lsu) : Lsu :=
  mkLsu (misaligned_size l) (misaligned_data l) (misaligned_addr l)
        (misaligned_is_write l) (elw_stalled l) (stall_callback l) v
        (stall_size l) (io_req l).

Definition set_stall_size (v : Z) (l : Lsu) : Lsu :=
  mkLsu (misaligned_size l) (misaligned_data l) (misaligned_addr l)
        (misaligned_is_write l) (elw_stalled l) (stall_callback l)
        (stall_reg l) v (io_req l).

Definition set_io_req (f : vp_io_req -> vp_io_req) (l : Lsu) : Lsu :=
  mkLsu (misaligned_size l) (misaligned_data l) (misaligned_addr l)
        (misaligned_is_write l) (elw_stalled l) (stall_callback l)
        (stall_reg l) (stall_size l) (f (io_req l)).

(** The pending-access record of a split access, as one tuple:
    remaining size, remaining buffer, remaining address, direction. *)
Definition pending_access (l : Lsu) : Z * Z * Z * bool :=
  (misaligned_size l, misaligned_data l, misaligned_addr l,
   misaligned_is_write l).

(** ** Calls to the collaborators *)

(** The texts passed to [trace.msg].  The response trace also prints the
    pipeline's own counter [exec.stalled], which the LSU does not hold. *)
Inductive trace_msg : Type :=
| MsgSecondHalf
| MsgMisalignedRequest (addr size : Z) (is_write : bool)
| MsgReceivedResponse
| MsgDataRequest (addr size : Z) (is_write : bool)
| MsgWaitingResponse
| MsgAtomicRequest (addr size opcode : Z).

(** The two calls to [vp_warning_always], with their arguments. *)
Inductive warning_msg : Type :=
| InvalidAccess (pc offset size : Z) (is_write : bool)
| InvalidAtomicAccess (pc offset size opcode : Z).

Inductive event : Type :=
| TraceMsg (m : trace_msg)
| TraceWarningUnimplemented
| TraceForceWarningUnimplemented
| WarningAlways (w : warning_msg)
| TimingEventLoadAccount (n : Z)
| TimingCycleAccount
| TimingEventMisalignedAccount (n : Z)
| TimingStallLoadAccount (latency : Z)
| ExecInsnStall
| ExecInsnHold
| ExecInsnTerminate
| ExecStalledDec
| ExecSwitchToFullMode
| ExecBusyEnter
| ExecInstrEventMethSetExecMisaligned
| MmuLoadVirtToPhys (addr : Z)
| MmuStoreVirtToPhys (addr : Z)
| DataReq (q : vp_io_req)
| StallCallbackCall (cb : stall_callback_t).

(** The part of [Iss] the LSU reads or writes: the LSU itself, the register
    file, [exec.current_insn->addr], [csr.mhartid], whether [exec.elw_insn]
    is set, [trace.dump_trace_enabled], and the log of collaborator calls. *)
Record Iss : Type := mkIss {
  lsu : Lsu;
  regfile : Z -> Z;
  exec_current_insn_addr : Z;
  csr_mhartid : Z;
  exec_elw_insn : option Z;
  trace_dump_trace_enabled : bool;
  events : list event
}.

Definition set_lsu (f : Lsu -> Lsu) (s : Iss) : Iss :=
  mkIss (f (lsu s)) (regfile s) (exec_current_insn_addr s) (csr_mhartid s)
        (exec_elw_insn s) (trace_dump_trace_enabled s) (events s).

Definition set_regfile (f : (Z -> Z) -> Z -> Z) (s : Iss) : Iss :=
  mkIss (lsu s) (f (regfile s)) (exec_current_insn_addr s) (csr_mhartid s)
        (exec_elw_insn s) (trace_dump_trace_enabled s) (events s).

Definition set_exec_elw_insn (v : option Z) (s : Iss) : Iss :=
  mkIss (lsu s) (regfile s) (exec_current_insn_addr s) (csr_mhartid s)
        v (trace_dump_trace_enabled s) (events s).

Definition set_dump_trace_enabled (v : bool) (s : Iss) : Iss :=
  mkIss (lsu s) (regfile s) (exec_current_insn_addr s) (csr_mhartid s)
        (exec_elw_insn s) v (events s).

Definition emit (e : event) (s : Iss) : Iss :=
  mkIss (lsu s) (regfile s) (exec_current_insn_addr s) (csr_mhartid s)
        (exec_elw_insn s) (trace_dump_trace_enabled s) (e :: events s).

(** Modelled from the spec: the register file ([regfile.get_reg],
    [regfile.set_reg]) is a collaborator; it is read and written by
    register index. *)
Definition get_reg (s : Iss) (reg : Z) : Z := regfile s reg.

Definition set_reg (reg value : Z) (s : Iss) : Iss :=
  set_regfile (fun rf r => if r =? reg then value else rf r) s.

(** What the memory interface answers to one call of [data.req]: the
    status, the latency it leaves in the request, and what the transfer
    writes through the buffers it was handed, which may be registers. *)
Record mem_reply : Type := mk_reply {
  reply_status : io_req_status_e;
  reply_latency : Z;
  reply_store : (Z -> Z) -> Z -> Z
}.

(** [this->data.req(req)] on the request slot. *)
Definition data_itf_req (r : mem_reply) (s : Iss) : io_req_status_e * Iss :=
  let s := emit (DataReq (io_req (lsu s))) s in
  let s := set_lsu (set_io_req (set_latency (reply_latency r))) s in
  (reply_status r, set_regfile (reply_store r) s).

(** ** Views of the log *)

Definition is_stall_callback (e : event) : bool :=
  match e with StallCallbackCall _ => true | _ => false end.

Definition is_data_req (e : event) : bool :=
  match e with DataReq _ => true | _ => false end.

Definition is_translation (e : event) : bool :=
  match e with MmuLoadVirtToPhys _ | MmuStoreVirtToPhys _ => true | _ => false end.

Definition is_pipeline (e : event) : bool :=
  match e with
  | ExecInsnStall | ExecInsnHold | ExecInsnTerminate | ExecStalledDec
  | ExecSwitchToFullMode | ExecBusyEnter
  | ExecInstrEventMethSetExecMisaligned => true
  | _ => false
  end.

Definition is_stalled_dec (e : event) : bool :=
  match e with ExecStalledDec => true | _ => false end.

Definition is_terminate (e : event) : bool :=
  match e with ExecInsnTerminate => true | _ => false end.

Definition is_hold (e : event) : bool :=
  match e with
  | ExecInsnHold | ExecInstrEventMethSetExecMisaligned => true
  | _ => false
  end.

Definition is_timing (e : event) : bool :=
  match e with
  | TimingEventLoadAccount _ | TimingCycleAccount
  | TimingEventMisalignedAccount _ | TimingStallLoadAccount _ => true
  | _ => false
  end.

Definition is_diagnostic (e : event) : bool :=
  match e with
  | TraceWarningUnimplemented | TraceForceWarningUnimplemented
  | WarningAlways _ => true
  | _ => false
  end.

(** The invocations of the resume action, the requests handed to the memory
    interface, the translations asked, the calls to the pipeline, among
    them those that hold the instruction for a deferred second half, the
    calls to the timing model and the diagnostics, each most recent first. *)
Definition callback_calls (s : Iss) : list event :=
  filter is_stall_callback (events s).

Definition requests (s : Iss) : list event := filter is_data_req (events s).

Definition translations (s : Iss) : list event :=
  filter is_translation (events s).

Definition pipeline_log (s : Iss) : list event :=
  filter is_pipeline (events s).

Definition stalled_decs (s : Iss) : list event :=
  filter is_stalled_dec (events s).

(** The calls to [exec.insn_terminate]. *)
Definition terminations (s : Iss) : list event :=
  filter is_terminate (events s).

Definition holds (s : Iss) : list event := filter is_hold (events s).

Definition timing_log (s : Iss) : list event := filter is_timing (events s).

Definition diagnostics (s : Iss) : list event :=
  filter is_diagnostic (events s).

(** ** Executions *)

(** What the LSU is waiting for: nothing, the deferred second half of a
    split access, or a response of the memory interface. *)
Inductive phase_t : Type :=
| Idle
| WaitingSplit
| WaitingResponse.

(** The calls the pipeline, the event scheduler and the memory interface
    make to the LSU, each with what the collaborators answer during it.  A
    response carries what the transfer wrote before it was signalled. *)
Inductive action : Type :=
| DoReset (active : bool)
| DoDataReq (r : mem_reply) (addr data_ptr size : Z) (is_write : bool)
| DoAtomic (r : mem_reply) (addr size reg_in reg_out opcode : Z)
| DoExecMisaligned (r : mem_reply)
| DoDataGrant
| DoDataResponse (store : (Z -> Z) -> Z -> Z) (latency : Z).

Definition is_submission (a : action) : bool :=
  match a with DoDataReq _ _ _ _ _ | DoAtomic _ _ _ _ _ _ => true | _ => false end.

Definition submissions (acts : list action) : nat :=
  length (filter is_submission acts).

Record world : Type := mkWorld {
  phase : phase_t;
  iss : Iss
}.

(** The most resume invocations a phase can still lead to without a new
    submission. *)
Definition outstanding (p : phase_t) : nat :=
  match p with Idle => 0 | _ => 1 end.

(** The memory interface owes a response exactly for a request it answered
    with accepted-but-not-complete. *)
Definition owed (r : mem_reply) : phase_t :=
  if status_eqb (reply_status r) IO_REQ_PENDING then WaitingResponse else Idle.

(** Width of C's [int]. *)
Definition wrap_int (x : Z) : Z := (x + 2 ^ 31) mod 2 ^ 32 - 2 ^ 31.

(** Compile-time constants and helpers of headers outside the sources at
    hand: the register width in bits, the opcode of load-reserved, the
    re-initialisation of a request ([vp::io_req::init]), the two
    re-encodings of a register value, the address of a register's storage
    ([regfile.reg_ref]), the two translations of the MMU (each returns
    whether it faulted and the physical address), and the binary logarithm
    of the alignment granule in bytes. *)
Record config : Type := mk_config {
  ISS_REG_WIDTH : Z;
  LR : Z;
  io_req_init : vp_io_req -> vp_io_req;
  iss_get_signed_value : Z -> Z -> Z;
  iss_get_boxed_value : Z -> Z -> Z;
  reg_ref : Z -> Z;
  load_virt_to_phys : Z -> bool * Z;
  store_virt_to_phys : Z -> bool * Z;
  granule_log2 : Z
}.

Section LSU.

Variable cfg : config.

Definition granule : Z := 2 ^ granule_log2 cfg.

(** Arithmetic on [iss_addr_t], an unsigned integer of the register width. *)
Definition wrap_addr (x : Z) : Z := x mod 2 ^ ISS_REG_WIDTH cfg.

(** Modelled from the spec: the macro [ADDR_MASK] is defined in a header
    outside the sources at hand.  The granule is a fixed power of two and
    the mask clears the bits of an address below it. *)
Definition ADDR_MASK : Z := Z.lnot (granule - 1).

(** [x & ADDR_MASK] on [iss_addr_t]. *)
Definition and_ADDR_MASK (x : Z) : Z := Z.land x (wrap_addr ADDR_MASK).

(** The granule an address falls in. *)
Definition granule_index (x : Z) : Z := x / granule.

(** ** The LSU *)

Definition reset (active : bool) (s : Iss) : Iss :=
  if active
  then set_lsu (fun l => set_misaligned_size 0 (set_elw_stalled false l)) s
  else s.

Definition store_resume (s : Iss) : Iss := emit ExecInsnTerminate s.

Definition load_resume (s : Iss) : Iss := emit ExecInsnTerminate s.

Definition elw_resume (s : Iss) : Iss :=
  let s := emit ExecInsnTerminate s in
  let s := set_exec_elw_insn None s in
  let s := set_lsu (set_elw_stalled false) s in
  emit ExecBusyEnter s.

Definition load_signed_resume (s : Iss) : Iss :=
  let s := emit ExecInsnTerminate s in
  let reg := stall_reg (lsu s) in
  set_reg reg (iss_get_signed_value cfg (get_reg s reg)
                                    (wrap_int (stall_size (lsu s) * 8))) s.

Definition load_boxed_resume (s : Iss) : Iss :=
  let s := emit ExecInsnTerminate s in
  let reg := stall_reg (lsu s) in
  set_reg reg (iss_get_boxed_value cfg (get_reg s reg)
                                   (wrap_int (stall_size (lsu s) * 8))) s.

(** [_this->stall_callback(_this)]: the call through the member pointer.
    The call itself is logged, then the function pointed to runs. *)
Definition call_stall_callback (s : Iss) : Iss :=
  let cb := stall_callback (lsu s) in
  let s := emit (StallCallbackCall cb) s in
  match cb with
  | cb_store_resume => store_resume s
  | cb_load_resume => load_resume s
  | cb_elw_resume => elw_resume s
  | cb_load_signed_resume => load_signed_resume s
  | cb_load_boxed_resume => load_boxed_resume s
  end.

Definition data_req_aligned (r : mem_reply) (addr data_ptr size : Z)
    (is_write : bool) (s : Iss) : io_req_status_e * Iss :=
  let s := emit (TraceMsg (MsgDataRequest addr size is_write)) s in
  let s := set_lsu (set_io_req (io_req_init cfg)) s in
  let s := set_lsu (set_io_req (set_addr addr)) s in
  let s := set_lsu (set_io_req (set_size size)) s in
  let s := set_lsu (set_io_req (set_is_write is_write)) s in
  let s := set_lsu (set_io_req (set_data data_ptr)) s in
  let '(err, s) := data_itf_req r s in
  if status_eqb err IO_REQ_OK then
    let s := if 0 <? req_latency (io_req (lsu s))
             then emit (TimingStallLoadAccount (req_latency (io_req (lsu s)))) s
             else s in
    (IO_REQ_OK, s)
  else if status_eqb err IO_REQ_INVALID then
    let s := emit (WarningAlways
                     (InvalidAccess (exec_current_insn_addr s) addr size
                                    is_write)) s in
    (err, s)
  else
    let s := emit (TraceMsg MsgWaitingResponse) s in
    let s := emit ExecInsnStall s in
    (err, s).

Definition exec_misaligned (r : mem_reply) (s : Iss) : Iss :=
  let s := emit (TraceMsg MsgSecondHalf) s in
  let s := emit (TimingEventLoadAccount 1) s in
  let s := emit TimingCycleAccount s in
  let '(err, s) :=
    data_req_aligned r (misaligned_addr (lsu s)) (misaligned_data (lsu s))
                     (misaligned_size (lsu s)) (misaligned_is_write (lsu s))
                     s in
  if status_eqb err IO_REQ_OK then
    let s := set_dump_trace_enabled true s in
    let s := call_stall_callback s in
    emit ExecSwitchToFullMode s
  else
    emit TraceWarningUnimplemented s.

Definition data_misaligned_req (r : mem_reply) (addr data_ptr size : Z)
    (is_write : bool) (s : Iss) : io_req_status_e * Iss :=
  let addr0 := and_ADDR_MASK addr in
  let addr1 := and_ADDR_MASK (wrap_addr (addr + size - 1)) in
  let s := emit (TraceMsg (MsgMisalignedRequest addr size is_write)) s in
  let s := emit (TimingEventMisalignedAccount 1) s in
  let size0 := wrap_int (wrap_addr (addr1 - addr)) in
  let size1 := wrap_int (size - size0) in
  let s := set_lsu (set_misaligned_size size1) s in
  let s := set_lsu (set_misaligned_data (data_ptr + size0)) s in
  let s := set_lsu (set_misaligned_addr addr1) s in
  let s := set_lsu (set_misaligned_is_write is_write) s in
  let '(err, s) := data_req_aligned r addr data_ptr size0 is_write s in
  if status_eqb err IO_REQ_OK then
    let s := emit ExecInstrEventMethSetExecMisaligned s in
    let s := emit ExecInsnHold s in
    (IO_REQ_PENDING, s)
  else
    let s := emit TraceForceWarningUnimplemented s in
    (IO_REQ_INVALID, s).

Definition data_grant (s : Iss) : Iss := s.

(** [latency] is [req->get_latency()] of the request that comes back. *)
Definition data_response (latency : Z) (s : Iss) : Iss :=
  let s := emit ExecStalledDec s in
  let s := emit (TraceMsg MsgReceivedResponse) s in
  let s := emit (TimingStallLoadAccount latency) s in
  if misaligned_size (lsu s) =? 0
  then call_stall_callback s
  else s.

Definition data_req (r : mem_reply) (addr data_ptr size : Z)
    (is_write : bool) (s : Iss) : io_req_status_e * Iss :=
  let addr0 := and_ADDR_MASK addr in
  let addr1 := and_ADDR_MASK (wrap_addr (addr + size - 1)) in
  if addr0 =? addr1
  then data_req_aligned r addr data_ptr size is_write s
  else data_misaligned_req r addr data_ptr size is_write s.

Definition atomic (r : mem_reply) (addr size reg_in reg_out opcode : Z)
    (s : Iss) : Iss :=
  let s := emit (TraceMsg (MsgAtomicRequest addr size opcode)) s in
  let '(fault, s) :=
    if opcode =? LR cfg
    then (fst (load_virt_to_phys cfg addr), emit (MmuLoadVirtToPhys addr) s)
    else (fst (store_virt_to_phys cfg addr), emit (MmuStoreVirtToPhys addr) s) in
  if fault then s else
  let s := set_lsu (set_io_req (io_req_init cfg)) s in
  let s := set_lsu (set_io_req (set_addr addr)) s in
  let s := set_lsu (set_io_req (set_size size)) s in
  let s := set_lsu (set_io_req (set_opcode opcode)) s in
  let s := set_lsu (set_io_req (set_data (reg_ref cfg reg_in))) s in
  let s := set_lsu (set_io_req (set_second_data (reg_ref cfg reg_out))) s in
  let s := set_lsu (set_io_req (set_initiator (csr_mhartid s))) s in
  let '(err, s) := data_itf_req r s in
  if status_eqb err IO_REQ_OK then
    let s := if negb (size =? ISS_REG_WIDTH cfg / 8)
             then set_reg reg_out
                    (iss_get_signed_value cfg (get_reg s reg_out)
                                          (wrap_int (size * 8))) s
             else s in
    if 0 <? req_latency (io_req (lsu s))
    then emit (TimingStallLoadAccount (req_latency (io_req (lsu s)))) s
    else s
  else if status_eqb err IO_REQ_INVALID then
    emit (WarningAlways
            (InvalidAtomicAccess (exec_current_insn_addr s) addr size opcode))
         s
  else
    let s := emit (TraceMsg MsgWaitingResponse) s in
    let s := emit ExecInsnStall s in
    if negb (size =? ISS_REG_WIDTH cfg / 8) then
      let s := set_lsu (set_stall_callback cb_load_signed_resume) s in
      let s := set_lsu (set_stall_reg reg_out) s in
      set_lsu (set_stall_size size) s
    else
      set_lsu (set_stall_callback cb_store_resume) s.

(** ** Notions used to state the properties *)

(** The request slot as [data_req_aligned] fills it before the call to the
    memory interface. *)
Definition filled_request (s : Iss) (addr data_ptr size : Z) (is_write : bool)
    : vp_io_req :=
  set_data data_ptr
    (set_is_write is_write
       (set_size size (set_addr addr (io_req_init cfg (io_req (lsu s)))))).

(** The test of [data_req]: whether the access leaves the granule it starts
    in. *)
Definition crosses_granule (addr size : Z) : bool :=
  negb (and_ADDR_MASK addr =? and_ADDR_MASK (wrap_addr (addr + size - 1))).

(** The resume action [atomic] selects for an access of [size] bytes. *)
Definition atomic_resume (size : Z) : stall_callback_t :=
  if size =? ISS_REG_WIDTH cfg / 8 then cb_store_resume
  else cb_load_signed_resume.

(** The request slot as [atomic] fills it before the call to the memory
    interface. *)
Definition filled_atomic_request (s : Iss)
    (addr size reg_in reg_out opcode : Z) : vp_io_req :=
  set_initiator (csr_mhartid s)
    (set_second_data (reg_ref cfg reg_out)
       (set_data (reg_ref cfg reg_in)
          (set_opcode opcode
             (set_size size
                (set_addr addr (io_req_init cfg (io_req (lsu s)))))))).

(** The calls that write the remaining size of the pending-access record:
    an active reset and a submission that is split. *)
Definition writes_remaining_size (a : action) : bool :=
  match a with
  | DoReset active => active
  | DoDataReq _ addr _ size _ => crosses_granule addr size
  | _ => false
  end.

(** ** Running the LSU *)

(** Whether the translation [atomic] asks for reports a fault. *)
Definition translation_faults (addr opcode : Z) : bool :=
  if opcode =? LR cfg
  then fst (load_virt_to_phys cfg addr)
  else fst (store_virt_to_phys cfg addr).

(** One call into the LSU.  Submissions and resets come while nothing is
    outstanding, the deferred second half runs when one was registered, a
    response comes when the memory interface owes one. *)
Definition step (a : action) (w : world) : option world :=
  match phase w, a with
  | Idle, DoReset active => Some (mkWorld Idle (reset active (iss w)))
  | Idle, DoDataReq r addr data_ptr size is_write =>
      let '(err, s) := data_req r addr data_ptr size is_write (iss w) in
      Some (mkWorld (if status_eqb (reply_status r) IO_REQ_PENDING
                     then WaitingResponse
                     else if status_eqb err IO_REQ_PENDING
                          then WaitingSplit
                          else Idle) s)
  | Idle, DoAtomic r addr size reg_in reg_out opcode =>
      Some (mkWorld (if translation_faults addr opcode then Idle else owed r)
                    (atomic r addr size reg_in reg_out opcode (iss w)))
  | WaitingSplit, DoExecMisaligned r =>
      Some (mkWorld (owed r) (exec_misaligned r (iss w)))
  | WaitingResponse, DoDataGrant =>
      Some (mkWorld WaitingResponse (data_grant (iss w)))
  | WaitingResponse, DoDataResponse store latency =>
      Some (mkWorld Idle (data_response latency (set_regfile store (iss w))))
  | _, _ => None
  end.

Fixpoint run (acts : list action) (w : world) : option world :=
  match acts with
  | [] => Some w
  | a :: acts' =>
      match step a w with
      | Some w' => run acts' w'
      | None => None
      end
  end.

End LSU.

(** What is looked at after an execution: the phase, the remaining size of
    the pending-access record and the invocations of the resume action. *)
Definition outcome (o : option world)
    : option (phase_t * Z * list event) :=
  match o with
  | Some w => Some (phase w, misaligned_size (lsu (iss w)),
                    callback_calls (iss w))
  | None => None
  end.

(** ** A 32-bit core *)

(** The low [bits] bits of [val] read as a signed number, as a 32-bit
    register value. *)
Definition sign_extend_32 (val bits : Z) : Z :=
  ((val + 2 ^ (bits - 1)) mod 2 ^ bits - 2 ^ (bits - 1)) mod 2 ^ 32.

(** The bits of [val] from [bits] upwards set, as a 32-bit register value. *)
Definition box_32 (val bits : Z) : Z :=
  Z.lor (val mod 2 ^ bits) (2 ^ 32 - 2 ^ bits).

(** A core with 32-bit registers, a granule of four bytes and a translator
    that maps every address to itself. *)
Definition rv32 : config :=
  mk_config 32 2 (set_latency 0) sign_extend_32 box_32 (fun reg => 4 * reg)
            (fun a => (false, a)) (fun a => (false, a)) 2.

(** The same core with a translator that faults on every address. *)
Definition rv32_faulting : config :=
  mk_config 32 2 (set_latency 0) sign_extend_32 box_32 (fun reg => 4 * reg)
            (fun a => (true, 0)) (fun a => (true, 0)) 2.

Definition lsu0 : Lsu :=
  mkLsu 0 0 0 false false cb_load_resume 0 0 (mk_io_req 0 0 false 0 0 0 0 0).

(** A core at program counter [0x1c000080] with all registers zero and an
    empty log. *)
Definition iss0 : Iss := mkIss lsu0 (fun _ => 0) 0x1c000080 0 None false [].

Definition reply_ok (latency : Z) : mem_reply :=
  mk_reply IO_REQ_OK latency (fun rf => rf).

Definition reply_invalid : mem_reply :=
  mk_reply IO_REQ_INVALID 0 (fun rf => rf).

Definition reply_pending : mem_reply :=
  mk_reply IO_REQ_PENDING 0 (fun rf => rf).

(** A transfer that leaves [value] in register [reg]. *)
Definition returns_in (reg value : Z) (rf : Z -> Z) : Z -> Z :=
  fun r => if r =? reg then value else rf r.

(** * The power tables *)

(** A shallow embedding of the lookups of [engine/src/power/power_table.cpp]
    and of the energy sums of [engine/src/power/component_power.cpp].

    The tables hold [double] values.  The lookups compare them with [==] and
    [>] and combine them with [+], [-], [*] and [/]; the type and these
    operations are taken as they come, nothing is assumed of them, so that
    what is proved holds of IEEE 754 doubles, NaN included. *)
Record double_ops : Type := mk_double_ops {
  double : Type;
  double_eq : double -> double -> bool;
  double_gt : double -> double -> bool;
  double_add : double -> double -> double;
  double_sub : double -> double -> double;
  double_mul : double -> double -> double;
  double_div : double -> double -> double
}.

(** [v[i]] on a [std::vector] with an [int] index: there is no element at a
    negative index or past the end. *)
Definition at_index {A : Type} (v : list A) (i : Z) : option A :=
  if i <? 0 then None else nth_error v (Z.to_nat i).

(** The two adjustments after the search loop:
    [if (high == -1) high = low; if (low == -1) low = high;]. *)
Definition limit_indexes (lh : Z * Z) : Z * Z :=
  let '(low_index, high_index) := lh in
  let high_index := if high_index =? -1 then low_index else high_index in
  let low_index := if low_index =? -1 then high_index else low_index in
  (low_index, high_index).

Section PowerTables.

Variable D : double_ops.

(** The members of the four table classes; [get_freq], [get_volt] and
    [get_temp] are the accessors of the keys and [freq_value] is what
    [PowerLinearFreqTable::get] returns.  [any] is a null pointer when the
    configuration has no entry of that name. *)
Record PowerLinearFreqTable : Type := mkFreqTable {
  get_freq : double D;
  freq_value : double D
}.

Record PowerLinearVoltTable : Type := mkVoltTable {
  get_volt : double D;
  any : option PowerLinearFreqTable;
  freq_tables : list PowerLinearFreqTable
}.

Record PowerLinearTempTable : Type := mkTempTable {
  get_temp : double D;
  volt_tables : list PowerLinearVoltTable
}.

Record PowerLinearTable : Type := mkPowerTable {
  temp_tables : list PowerLinearTempTable
}.

(** The search loop, which the three lookups have in the same words: from
    entry [i] on, with [low_index] as set so far, it stops at the first
    entry whose key equals [x] or is greater than [x]; the result is
    [(low_index, high_index)] at the exit of the loop.  The counter is
    stored into [int] variables. *)
Fixpoint find_indexes {A : Type} (key : A -> double D) (tables : list A)
    (x : double D) (i low_index : Z) : Z * Z :=
  match tables with
  | [] => (low_index, -1)
  | t :: rest =>
      if double_eq D (key t) x then (wrap_int i, wrap_int i)
      else if double_gt D (key t) x then (low_index, wrap_int i)
      else find_indexes key rest x (i + 1) (wrap_int i)
  end.

(** The body the three lookups share: search, adjust the indexes, then
    either read the entry found or interpolate between the two entries
    around [x].  [get] is the lookup one level down.  The result is [None]
    when a vector is indexed where it has no element. *)
Definition interpolated_get {A : Type} (key : A -> double D)
    (get : A -> option (double D)) (tables : list A) (x : double D)
    : option (double D) :=
  let '(low_index, high_index) :=
    limit_indexes (find_indexes key tables x 0 (-1)) in
  if high_index =? low_index then
    match at_index tables low_index with
    | Some t => get t
    | None => None
    end
  else
    match at_index tables low_index, at_index tables high_index with
    | Some tl, Some th =>
        let low := key tl in
        let high := key th in
        match get tl, get th with
        | Some value_at_low, Some value_at_high =>
            let ratio := double_div D (double_sub D x low)
                                      (double_sub D high low) in
            Some (double_add D
                    (double_mul D (double_sub D value_at_high value_at_low)
                                  ratio)
                    value_at_low)
        | _, _ => None
        end
    | _, _ => None
    end.

Definition PowerLinearVoltTable_get (v : PowerLinearVoltTable)
    (frequency : double D) : option (double D) :=
  match any v with
  | Some a => Some (freq_value a)
  | None =>
      interpolated_get get_freq (fun f => Some (freq_value f))
                       (freq_tables v) frequency
  end.

Definition PowerLinearTempTable_get (t : PowerLinearTempTable)
    (volt frequency : double D) : option (double D) :=
  interpolated_get get_volt (fun v => PowerLinearVoltTable_get v frequency)
                   (volt_tables t) volt.

Definition PowerLinearTable_get (p : PowerLinearTable)
    (temp volt frequency : double D) : option (double D) :=
  interpolated_get get_temp
                   (fun t => PowerLinearTempTable_get t volt frequency)
                   (temp_tables p) temp.

(** ** Notions used to state the properties of the tables *)

(** The loop goes past an entry whose key neither equals [x] nor is greater
    than [x]. *)
Definition passed {A : Type} (key : A -> double D) (x : double D) (t : A)
    : bool :=
  negb (double_eq D (key t) x) && negb (double_gt D (key t) x).

(** The interpolation between two values read at the keys [low] and
    [high]. *)
Definition interpolation (x low high value_at_low value_at_high : double D)
    : double D :=
  double_add D
    (double_mul D (double_sub D value_at_high value_at_low)
       (double_div D (double_sub D x low) (double_sub D high low)))
    value_at_low.

(** A vector the loop can index with an [int]. *)
Definition int_indexed {A : Type} (v : list A) : Prop :=
  Z.of_nat (length v) <= 2 ^ 31.

(** A table with an entry to read at every level. *)
Definition volt_table_filled (v : PowerLinearVoltTable) : Prop :=
  int_indexed (freq_tables v) /\
  (any v = None -> freq_tables v <> []).

Definition temp_table_filled (t : PowerLinearTempTable) : Prop :=
  int_indexed (volt_tables t) /\ volt_tables t <> [] /\
  Forall volt_table_filled (volt_tables t).

Definition power_table_filled (p : PowerLinearTable) : Prop :=
  int_indexed (temp_tables p) /\ temp_tables p <> [] /\
  Forall temp_table_filled (temp_tables p).

End PowerTables.

Arguments get_freq {D} _.
Arguments freq_value {D} _.
Arguments get_volt {D} _.
Arguments any {D} _.
Arguments freq_tables {D} _.
Arguments get_temp {D} _.
Arguments volt_tables {D} _.
Arguments temp_tables {D} _.

(** Integers in place of doubles, to run the lookups. *)
Definition Z_ops : double_ops :=
  mk_double_ops Z Z.eqb Z.gtb Z.add Z.sub Z.mul Z.div.

(** Leakage of a block in microwatts at 0.8 V and 1.2 V, at 25 and at 85
    degrees, whatever the frequency. *)
Definition leakage_volt (volt power : Z) : PowerLinearVoltTable Z_ops :=
  mkVoltTable Z_ops volt (Some (mkFreqTable Z_ops 0 power)) [].

Definition leakage_table : PowerLinearTable Z_ops :=
  mkPowerTable Z_ops
    [mkTempTable Z_ops 25 [leakage_volt 800 100; leakage_volt 1200 300];
     mkTempTable Z_ops 85 [leakage_volt 800 400; leakage_volt 1200 1000]].

(** Dynamic power of a block in microwatts at 100, 200 and 400 MHz. *)
Definition dynamic_volt : PowerLinearVoltTable Z_ops :=
  mkVoltTable Z_ops 800 None
    [mkFreqTable Z_ops 100 50; mkFreqTable Z_ops 200 90;
     mkFreqTable Z_ops 400 210].

(** * The energy of a component *)

Section ComponentPower.

Variable D : double_ops.

(** The traces are objects of a class outside the sources at hand;
    [get_energy] is the pair of dynamic and leakage energy a trace
    reports. *)
Variable power_trace : Type.
Variable get_energy : power_trace -> double D * double D.

(** A component with the power traces registered on it and its child
    components. *)
Unset Elimination Schemes.

Inductive component : Type :=
| Component (traces : list power_trace) (childs : list component).

Set Elimination Schemes.

Definition traces_of (c : component) : list power_trace :=
  match c with Component traces _ => traces end.

Definition get_childs (c : component) : list component :=
  match c with Component _ childs => childs end.

(** The body of the loop over the traces:
    [*dynamic += trace_dynamic; *leakage += trace_leakage;]. *)
Definition account_trace (acc : double D * double D) (x : power_trace)
    : double D * double D :=
  let '(trace_dynamic, trace_leakage) := get_energy x in
  (double_add D (fst acc) trace_dynamic, double_add D (snd acc) trace_leakage).

(** [acc] is what [*dynamic] and [*leakage] hold at the call; the result is
    what they hold at the return. *)
Fixpoint power_get_energy_from_self_and_childs (c : component)
    (acc : double D * double D) : double D * double D :=
  match c with
  | Component traces childs =>
      let acc := fold_left account_trace traces acc in
      fold_left (fun acc x => power_get_energy_from_self_and_childs x acc)
                childs acc
  end.

Definition power_get_energy_from_childs (c : component)
    (acc : double D * double D) : double D * double D :=
  fold_left (fun acc x => power_get_energy_from_self_and_childs x acc)
            (get_childs c) acc.

(** The traces of a component and of the components below it, a component
    before its children and the children in their order. *)
Fixpoint all_traces (c : component) : list power_trace :=
  match c with
  | Component traces childs => traces ++ flat_map all_traces childs
  end.

End ComponentPower.

Arguments Component {power_trace} _ _.

(** A cluster with one trace of its own and two cores below it, the second
    with two traces; a trace is the pair of energies it reports. *)
Definition cluster : component (Z * Z) :=
  Component [(5, 1)]
    [Component [(10, 2)] []; Component [(20, 3); (7, 4)] []].

(** * Properties *)

(** ** Arithmetic of the granule mask *)

Section Mask.

Variable cfg : config.

Hypothesis granule_fits : 0 <= granule_log2 cfg <= ISS_REG_WIDTH cfg.

Lemma granule_pos : 0 < granule cfg.
Proof. unfold granule. apply Z.pow_pos_nonneg; lia. Qed.

Lemma addr_space_multiple :
  2 ^ ISS_REG_WIDTH cfg =
  granule cfg * 2 ^ (ISS_REG_WIDTH cfg - granule_log2 cfg).
Proof.
  unfold granule. rewrite <- Z.pow_add_r by lia. f_equal. lia.
Qed.

Lemma wrap_addr_range (x : Z) : 0 <= wrap_addr cfg x < 2 ^ ISS_REG_WIDTH cfg.
Proof. unfold wrap_addr. apply Z.mod_pos_bound, Z.pow_pos_nonneg; lia. Qed.

(** On an address of the register width, masking rounds down to the first
    address of the granule. *)
Lemma and_ADDR_MASK_spec (x : Z) :
  0 <= x < 2 ^ ISS_REG_WIDTH cfg ->
  and_ADDR_MASK cfg x = granule cfg * (x / granule cfg).
Proof.
  intros Hx.
  assert (Hk : 0 <= granule_log2 cfg) by lia.
  assert (HW : 0 <= ISS_REG_WIDTH cfg) by lia.
  transitivity (Z.ldiff x (Z.ones (granule_log2 cfg))).
  - unfold and_ADDR_MASK, wrap_addr, ADDR_MASK, granule.
    replace (2 ^ granule_log2 cfg - 1) with (Z.ones (granule_log2 cfg))
      by (rewrite Z.ones_equiv; lia).
    apply Z.bits_inj'. intros n Hn.
    rewrite Z.land_spec, Z.ldiff_spec.
    destruct (Z.ltb_spec n (ISS_REG_WIDTH cfg)) as [Hlt | Hge].
    + rewrite Z.mod_pow2_bits_low by lia.
      rewrite Z.lnot_spec by lia. reflexivity.
    + rewrite Z.mod_pow2_bits_high by lia.
      assert (Hbit : Z.testbit x n = false).
      { destruct (Z.eq_dec x 0) as [-> | Hnz]; [apply Z.bits_0 |].
        apply Z.bits_above_log2; [lia |].
        apply Z.lt_le_trans with (ISS_REG_WIDTH cfg); [| lia].
        apply Z.log2_lt_pow2; lia. }
      rewrite Hbit. reflexivity.
  - rewrite Z.ldiff_ones_r by lia.
    rewrite Z.shiftl_mul_pow2, Z.shiftr_div_pow2 by lia.
    unfold granule. lia.
Qed.

(** The test of [data_req] compares the granules of the first and of the
    last byte. *)
Lemma same_mask_same_granule (x y : Z) :
  0 <= x < 2 ^ ISS_REG_WIDTH cfg ->
  0 <= y < 2 ^ ISS_REG_WIDTH cfg ->
  (and_ADDR_MASK cfg x =? and_ADDR_MASK cfg y) =
  (granule_index cfg x =? granule_index cfg y).
Proof.
  intros Hx Hy. rewrite !and_ADDR_MASK_spec by assumption.
  unfold granule_index. pose proof granule_pos as Hg.
  destruct (Z.eqb_spec (x / granule cfg) (y / granule cfg)) as [-> | Hne].
  - apply Z.eqb_refl.
  - apply Z.eqb_neq. nia.
Qed.

End Mask.

Section Split.

Variable cfg : config.

Hypothesis granule_fits : 0 <= granule_log2 cfg <= ISS_REG_WIDTH cfg.

Lemma wrap_int_small (x : Z) : - 2 ^ 31 <= x < 2 ^ 31 -> wrap_int x = x.
Proof.
  intros Hx. unfold wrap_int. rewrite Z.mod_small by lia. lia.
Qed.

(** An access of at most one granule whose first and last byte lie in
    different granules ends in the granule that follows the one it starts
    in, also when the last byte wraps around the address space. *)
Lemma next_granule_split (addr size : Z) :
  0 <= addr < 2 ^ ISS_REG_WIDTH cfg ->
  0 < size <= granule cfg ->
  granule_index cfg addr <> granule_index cfg (wrap_addr cfg (addr + size - 1)) ->
  and_ADDR_MASK cfg (wrap_addr cfg (addr + size - 1)) =
    wrap_addr cfg (granule cfg * (granule_index cfg addr + 1)) /\
  wrap_addr cfg (wrap_addr cfg (granule cfg * (granule_index cfg addr + 1)) - addr) =
    granule cfg - addr mod granule cfg /\
  0 < granule cfg - addr mod granule cfg < size.
Proof.
  intros Ha Hs Hcross.
  pose proof (granule_pos cfg granule_fits) as Hg.
  pose proof (addr_space_multiple cfg granule_fits) as HM.
  rewrite and_ADDR_MASK_spec
    by (assumption || apply wrap_addr_range; assumption).
  unfold granule_index, wrap_addr in *.
  set (G := granule cfg) in *.
  set (N := 2 ^ (ISS_REG_WIDTH cfg - granule_log2 cfg)) in *.
  assert (HN : 0 < N) by (apply Z.pow_pos_nonneg; lia).
  rewrite HM in *.
  pose proof (Z.div_mod addr G ltac:(lia)) as Hdm.
  pose proof (Z.mod_pos_bound addr G Hg) as Hr.
  set (q := addr / G) in *. set (r := addr mod G) in *.
  assert (Hq : 0 <= q < N) by nia.
  destruct (Z_lt_le_dec (addr + size - 1) (G * N)) as [Hlow | Hhigh].
  - rewrite (Z.mod_small (addr + size - 1)) in * by lia.
    assert (Hb : (addr + size - 1) / G = q + 1).
    { assert (q <= (addr + size - 1) / G)
        by (apply Z.div_le_lower_bound; lia).
      assert ((addr + size - 1) / G < q + 2)
        by (apply Z.div_lt_upper_bound; nia).
      lia. }
    rewrite Hb.
    assert (Hle : G * (q + 1) <= addr + size - 1).
    { rewrite <- Hb. apply Z.mul_div_le. lia. }
    rewrite (Z.mod_small (G * (q + 1))) by nia.
    rewrite Z.mod_small by nia.
    repeat split; lia.
  - assert (Hb : (addr + size - 1) mod (G * N) = addr + size - 1 - G * N).
    { symmetry. apply Z.mod_unique with 1; nia. }
    rewrite Hb in *.
    assert (Hb0 : (addr + size - 1 - G * N) / G = 0)
      by (apply Z.div_small; nia).
    rewrite Hb0 in *.
    assert (Hq1 : q = N - 1) by nia.
    assert (Hwrap : (G * (q + 1)) mod (G * N) = 0).
    { subst q. rewrite Hq1. replace (N - 1 + 1) with N by lia.
      apply Z.mod_same. nia. }
    rewrite Hwrap.
    assert (Hneg : (0 - addr) mod (G * N) = G * N - addr).
    { symmetry. apply Z.mod_unique with (-1); nia. }
    rewrite Hneg.
    repeat split; nia.
Qed.

End Split.

(** ** Submission *)

Section Submission.

Variable cfg : config.

(** What [data_req_aligned] leaves alone whatever the memory interface
    answers, and the one request it submits. *)
Lemma data_req_aligned_frame (r : mem_reply) (addr data_ptr size : Z)
    (is_write : bool) (s : Iss) :
  let s' := snd (data_req_aligned cfg r addr data_ptr size is_write s) in
  fst (data_req_aligned cfg r addr data_ptr size is_write s) = reply_status r /\
  requests s' = DataReq (filled_request cfg s addr data_ptr size is_write) :: requests s /\
  pending_access (lsu s') = pending_access (lsu s) /\
  stall_callback (lsu s') = stall_callback (lsu s) /\
  stall_reg (lsu s') = stall_reg (lsu s) /\
  stall_size (lsu s') = stall_size (lsu s) /\
  elw_stalled (lsu s') = elw_stalled (lsu s) /\
  callback_calls s' = callback_calls s /\
  translations s' = translations s.
Proof.
  unfold data_req_aligned, data_itf_req, filled_request.
  destruct r as [st lat store]; destruct st; simpl;
    try destruct (0 <? lat); simpl; repeat split; reflexivity.
Qed.

(** C4: the aligned path maps the three answers of the memory interface.
    On success the latency goes to the stall account exactly when it is not
    zero, the pipeline is not called and success is returned.  On rejection
    one diagnostic with program counter, address, size and direction is
    emitted, the pipeline is not called, no resume action runs and
    rejection is returned.  Otherwise the instruction is suspended and
    pending is returned. *)
Theorem data_req_aligned_outcomes (r : mem_reply) (addr data_ptr size : Z)
    (is_write : bool) (s : Iss) :
  0 <= reply_latency r ->
  let res := data_req_aligned cfg r addr data_ptr size is_write s in
  let s' := snd res in
  match reply_status r with
  | IO_REQ_OK =>
      fst res = IO_REQ_OK /\
      timing_log s' =
        (if reply_latency r =? 0 then []
         else [TimingStallLoadAccount (reply_latency r)]) ++ timing_log s /\
      pipeline_log s' = pipeline_log s /\
      diagnostics s' = diagnostics s /\
      callback_calls s' = callback_calls s
  | IO_REQ_INVALID =>
      fst res = IO_REQ_INVALID /\
      diagnostics s' =
        WarningAlways (InvalidAccess (exec_current_insn_addr s) addr size
                                     is_write) :: diagnostics s /\
      pipeline_log s' = pipeline_log s /\
      timing_log s' = timing_log s /\
      callback_calls s' = callback_calls s
  | IO_REQ_PENDING =>
      fst res = IO_REQ_PENDING /\
      pipeline_log s' = ExecInsnStall :: pipeline_log s /\
      diagnostics s' = diagnostics s /\
      timing_log s' = timing_log s /\
      callback_calls s' = callback_calls s
  end.
Proof.
  intros Hlat. unfold data_req_aligned, data_itf_req.
  destruct r as [st lat store]. simpl in *.
  destruct st; simpl; try (repeat split; reflexivity).
  destruct (Z.ltb_spec 0 lat) as [Hpos | Hzero];
    destruct (Z.eqb_spec lat 0) as [Heq | Hne]; try lia;
    simpl; repeat split; reflexivity.
Qed.

(** C5: the misaligned path after its first sub-access.  After an immediate
    success the deferred second half is registered on the instruction
    event, the instruction is held and pending is returned.  After any
    other answer the forced diagnostic is emitted and rejection is
    returned; neither way is a second request submitted. *)
Theorem data_misaligned_req_outcomes (r : mem_reply) (addr data_ptr size : Z)
    (is_write : bool) (s : Iss) :
  let res := data_misaligned_req cfg r addr data_ptr size is_write s in
  let s' := snd res in
  length (requests s') = S (length (requests s)) /\
  match reply_status r with
  | IO_REQ_OK =>
      fst res = IO_REQ_PENDING /\
      pipeline_log s' =
        ExecInsnHold :: ExecInstrEventMethSetExecMisaligned :: pipeline_log s /\
      diagnostics s' = diagnostics s
  | IO_REQ_INVALID =>
      fst res = IO_REQ_INVALID /\
      hd_error (diagnostics s') = Some TraceForceWarningUnimplemented /\
      pipeline_log s' = pipeline_log s
  | IO_REQ_PENDING =>
      fst res = IO_REQ_INVALID /\
      hd_error (diagnostics s') = Some TraceForceWarningUnimplemented /\
      pipeline_log s' = ExecInsnStall :: pipeline_log s
  end.
Proof.
  unfold data_misaligned_req, data_req_aligned, data_itf_req.
  destruct r as [st lat store]. simpl.
  destruct st; simpl; try destruct (0 <? lat); simpl;
    repeat split; reflexivity.
Qed.

Hypothesis granule_fits : 0 <= granule_log2 cfg <= ISS_REG_WIDTH cfg.

(** C9: an access whose first and last byte fall in the same granule is
    submitted through the aligned path, with exactly one request, and the
    pending-access record is as before. *)
Theorem data_req_same_granule (r : mem_reply) (addr data_ptr size : Z)
    (is_write : bool) (s : Iss) :
  0 <= addr < 2 ^ ISS_REG_WIDTH cfg ->
  granule_index cfg addr = granule_index cfg (wrap_addr cfg (addr + size - 1)) ->
  let res := data_req cfg r addr data_ptr size is_write s in
  res = data_req_aligned cfg r addr data_ptr size is_write s /\
  requests (snd res) =
    DataReq (filled_request cfg s addr data_ptr size is_write) :: requests s /\
  misaligned_size (lsu (snd res)) = misaligned_size (lsu s) /\
  misaligned_data (lsu (snd res)) = misaligned_data (lsu s) /\
  misaligned_addr (lsu (snd res)) = misaligned_addr (lsu s) /\
  misaligned_is_write (lsu (snd res)) = misaligned_is_write (lsu s).
Proof.
  intros Ha Hsame. cbv zeta.
  assert (Hroute : data_req cfg r addr data_ptr size is_write s =
                   data_req_aligned cfg r addr data_ptr size is_write s).
  { unfold data_req.
    rewrite same_mask_same_granule
      by (assumption || apply wrap_addr_range; assumption).
    rewrite Hsame, Z.eqb_refl. reflexivity. }
  rewrite Hroute. split; [reflexivity |].
  destruct (data_req_aligned_frame r addr data_ptr size is_write s)
    as (_ & Hreq & Hrec & _).
  split; [exact Hreq |].
  unfold pending_access in Hrec. inversion Hrec. repeat split; assumption.
Qed.

(** C3: an access of at most one granule that crosses a granule boundary
    goes to the misaligned path.  With [a1] the first address of the next
    granule and [size0 = a1 - addr], both in the arithmetic of addresses
    (modulo the address space), the request submitted is
    [(addr, size0)] in the same direction, the pending-access record holds
    address [a1], buffer [data_ptr + size0], size [size - size0] and the
    direction, and the two sizes are positive and add up to [size]. *)
Theorem data_req_crossing_split (r : mem_reply) (addr data_ptr size : Z)
    (is_write : bool) (s : Iss) :
  0 <= addr < 2 ^ ISS_REG_WIDTH cfg ->
  0 < size <= granule cfg ->
  size < 2 ^ 31 ->
  granule_index cfg addr <> granule_index cfg (wrap_addr cfg (addr + size - 1)) ->
  let a1 := wrap_addr cfg (granule cfg * (granule_index cfg addr + 1)) in
  let size0 := wrap_addr cfg (a1 - addr) in
  let size1 := size - size0 in
  let res := data_req cfg r addr data_ptr size is_write s in
  res = data_misaligned_req cfg r addr data_ptr size is_write s /\
  requests (snd res) =
    DataReq (filled_request cfg s addr data_ptr size0 is_write) :: requests s /\
  misaligned_addr (lsu (snd res)) = a1 /\
  misaligned_data (lsu (snd res)) = data_ptr + size0 /\
  misaligned_size (lsu (snd res)) = size1 /\
  misaligned_is_write (lsu (snd res)) = is_write /\
  size0 + size1 = size /\ 0 < size0 /\ 0 < size1.
Proof.
  intros Ha Hs Hint Hcross. cbv zeta.
  destruct (next_granule_split cfg granule_fits addr size Ha Hs Hcross)
    as (Ha1 & Hsize0 & Hbound).
  assert (Hroute : data_req cfg r addr data_ptr size is_write s =
                   data_misaligned_req cfg r addr data_ptr size is_write s).
  { unfold data_req.
    rewrite same_mask_same_granule
      by (assumption || apply wrap_addr_range; assumption).
    destruct (Z.eqb_spec (granule_index cfg addr)
                (granule_index cfg (wrap_addr cfg (addr + size - 1))));
      [contradiction | reflexivity]. }
  rewrite Hroute. split; [reflexivity |].
  unfold data_misaligned_req. rewrite Ha1, Hsize0.
  rewrite (wrap_int_small (granule cfg - addr mod granule cfg)) by lia.
  rewrite (wrap_int_small (size - _)) by lia.
  unfold data_req_aligned, data_itf_req, filled_request.
  destruct r as [st lat store]; destruct st; simpl;
    try destruct (0 <? lat); simpl; repeat split; lia.
Qed.

End Submission.

(** ** Rejection *)

Section Rejection.

Variable cfg : config.

(** C6, as the code has it: when [data_req] returns rejection, no hold is
    taken, no resume action is selected or run, and the wait-for-event flag
    is as before.  Through the aligned path the pipeline and the timing
    model are not called and the pending-access record is as before.
    Through the misaligned path one misaligned event has been accounted
    and the second half saved in the pending-access record before the first
    sub-access was tried, and the pipeline is not called when the memory
    interface rejected that sub-access. *)
Theorem data_req_rejected_effects (r : mem_reply) (addr data_ptr size : Z)
    (is_write : bool) (s : Iss) :
  let res := data_req cfg r addr data_ptr size is_write s in
  let s' := snd res in
  fst res = IO_REQ_INVALID ->
  holds s' = holds s /\
  callback_calls s' = callback_calls s /\
  stall_callback (lsu s') = stall_callback (lsu s) /\
  stall_reg (lsu s') = stall_reg (lsu s) /\
  stall_size (lsu s') = stall_size (lsu s) /\
  elw_stalled (lsu s') = elw_stalled (lsu s) /\
  if crosses_granule cfg addr size
  then let addr1 := and_ADDR_MASK cfg (wrap_addr cfg (addr + size - 1)) in
       let size0 := wrap_int (wrap_addr cfg (addr1 - addr)) in
       timing_log s' = TimingEventMisalignedAccount 1 :: timing_log s /\
       pending_access (lsu s') =
         (wrap_int (size - size0), data_ptr + size0, addr1, is_write) /\
       (reply_status r = IO_REQ_INVALID -> pipeline_log s' = pipeline_log s)
  else timing_log s' = timing_log s /\
       pipeline_log s' = pipeline_log s /\
       pending_access (lsu s') = pending_access (lsu s) /\
       diagnostics s' =
         WarningAlways (InvalidAccess (exec_current_insn_addr s) addr size
                                      is_write) :: diagnostics s.
Proof.
  unfold data_req, crosses_granule.
  destruct (and_ADDR_MASK cfg addr =?
            and_ADDR_MASK cfg (wrap_addr cfg (addr + size - 1))); simpl.
  - unfold data_req_aligned, data_itf_req.
    destruct r as [st lat store]; destruct st; simpl;
      try destruct (0 <? lat); simpl; intros Hres;
      try discriminate; repeat split; reflexivity.
  - unfold data_misaligned_req, data_req_aligned, data_itf_req.
    destruct r as [st lat store]; destruct st; simpl;
      try destruct (0 <? lat); simpl; intros Hres;
      try discriminate; repeat split; try reflexivity;
      intros Hst; discriminate.
Qed.

End Rejection.

(** ** Reset *)

(** C10: an active reset clears the wait-for-event flag and the remaining
    size of the pending-access record; an inactive reset changes nothing. *)
Theorem reset_effect (s : Iss) :
  elw_stalled (lsu (reset true s)) = false /\
  misaligned_size (lsu (reset true s)) = 0 /\
  reset false s = s.
Proof. repeat split; reflexivity. Qed.

(** ** Atomic operations *)

Section Atomic.

Variable cfg : config.

(** C8: [atomic] asks for the load translation exactly when the opcode is
    load-reserved and for the store translation otherwise; when the
    translation faults, no request is submitted, the timing model and the
    pipeline are not called, no resume action runs, and the LSU and the
    registers are as before. *)
Theorem atomic_translation (r : mem_reply)
    (addr size reg_in reg_out opcode : Z) (s : Iss) :
  let s' := atomic cfg r addr size reg_in reg_out opcode s in
  translations s' =
    (if opcode =? LR cfg then MmuLoadVirtToPhys addr
     else MmuStoreVirtToPhys addr) :: translations s /\
  (translation_faults cfg addr opcode = true ->
   requests s' = requests s /\
   timing_log s' = timing_log s /\
   pipeline_log s' = pipeline_log s /\
   callback_calls s' = callback_calls s /\
   lsu s' = lsu s /\
   regfile s' = regfile s).
Proof.
  unfold atomic, translation_faults, data_itf_req.
  destruct (opcode =? LR cfg).
  - destruct (fst (load_virt_to_phys cfg addr)); simpl.
    + split; [reflexivity |]. intros _. repeat split; reflexivity.
    + split; [| discriminate].
      destruct r as [st lat store]; destruct st; simpl;
        destruct (size =? ISS_REG_WIDTH cfg / 8); simpl;
        try destruct (0 <? lat); reflexivity.
  - destruct (fst (store_virt_to_phys cfg addr)); simpl.
    + split; [reflexivity |]. intros _. repeat split; reflexivity.
    + split; [| discriminate].
      destruct r as [st lat store]; destruct st; simpl;
        destruct (size =? ISS_REG_WIDTH cfg / 8); simpl;
        try destruct (0 <? lat); reflexivity.
Qed.

(** X20: with [returned] the value the transfer leaves in the destination
    register.  On immediate success the register holds [returned]
    sign-extended from [8 * size] bits when the access is narrower than a
    register and [returned] itself at the native width, and the pipeline is
    not called.  On a pending answer the instruction is suspended and the
    resume action selected is the sign-extending one, with the destination
    register and the size recorded, when the access is narrower, and the
    plain one at the native width.  When the remaining size of the
    pending-access record is zero at the submission, the response of the
    memory interface then terminates the instruction and leaves in the
    register the sign-extended value, respectively the value as
    returned. *)
Theorem atomic_sign_extension (r : mem_reply)
    (addr size reg_in reg_out opcode : Z) (s : Iss) :
  translation_faults cfg addr opcode = false ->
  0 < size <= ISS_REG_WIDTH cfg / 8 ->
  ISS_REG_WIDTH cfg < 2 ^ 31 ->
  let s' := atomic cfg r addr size reg_in reg_out opcode s in
  let narrower := size <? ISS_REG_WIDTH cfg / 8 in
  match reply_status r with
  | IO_REQ_OK =>
      let returned := reply_store r (regfile s) reg_out in
      get_reg s' reg_out =
        (if narrower then iss_get_signed_value cfg returned (size * 8)
         else returned) /\
      pipeline_log s' = pipeline_log s
  | IO_REQ_INVALID => True
  | IO_REQ_PENDING =>
      pipeline_log s' = ExecInsnStall :: pipeline_log s /\
      stall_callback (lsu s') =
        (if narrower then cb_load_signed_resume else cb_store_resume) /\
      (narrower = true ->
       stall_reg (lsu s') = reg_out /\ stall_size (lsu s') = size) /\
      forall (store : (Z -> Z) -> Z -> Z) (latency : Z),
        misaligned_size (lsu s) = 0 ->
        let returned := store (regfile s') reg_out in
        exists w' : world,
          run cfg [DoAtomic r addr size reg_in reg_out opcode;
                   DoDataResponse store latency] (mkWorld Idle s) =
            Some w' /\
          phase w' = Idle /\
          get_reg (iss w') reg_out =
            (if narrower then iss_get_signed_value cfg returned (size * 8)
             else returned) /\
          terminations (iss w') = ExecInsnTerminate :: terminations s
  end.
Proof.
  intros Hok Hsize Hwidth. cbv zeta.
  assert (Hbits : wrap_int (size * 8) = size * 8).
  { apply wrap_int_small.
    pose proof (Z.mul_div_le (ISS_REG_WIDTH cfg) 8 ltac:(lia)). lia. }
  assert (Hnarrow : negb (size =? ISS_REG_WIDTH cfg / 8) =
                    (size <? ISS_REG_WIDTH cfg / 8)).
  { destruct (Z.eqb_spec size (ISS_REG_WIDTH cfg / 8));
      destruct (Z.ltb_spec size (ISS_REG_WIDTH cfg / 8)); simpl; lia. }
  unfold run, step. cbn [phase iss].
  rewrite Hok. unfold owed.
  unfold atomic, translation_faults, data_itf_req in *.
  rewrite Hnarrow.
  destruct (opcode =? LR cfg); rewrite Hok;
    destruct r as [st lat store]; destruct st; simpl; trivial;
    destruct (size <? ISS_REG_WIDTH cfg / 8) eqn:Hlt; simpl;
    try destruct (0 <? lat); simpl;
    unfold get_reg; simpl; rewrite ?Z.eqb_refl, ?Hbits;
    repeat split; try reflexivity; try discriminate;
    intros store0 latency Hzero;
    (eexists; split; [reflexivity |]);
    unfold data_response; simpl; rewrite Hzero; simpl;
    unfold get_reg; simpl; rewrite ?Z.eqb_refl, ?Hbits;
    repeat split; reflexivity.
Qed.

End Atomic.

(** ** Completion and resume *)

Section Resume.

Variable cfg : config.

(** A call through [stall_callback] is one invocation of the action the
    member points to. *)
Lemma call_stall_callback_calls (s : Iss) :
  callback_calls (call_stall_callback cfg s) =
  StallCallbackCall (stall_callback (lsu s)) :: callback_calls s.
Proof.
  unfold call_stall_callback, callback_calls.
  destruct (stall_callback (lsu s)); reflexivity.
Qed.

(** The asynchronous completion decrements the pipeline's count of
    suspensions, accounts the latency that came back, and runs the resume
    action exactly when the remaining size of the pending-access record is
    zero. *)
Lemma data_response_effect (latency : Z) (s : Iss) :
  let s' := data_response cfg latency s in
  stalled_decs s' = ExecStalledDec :: stalled_decs s /\
  timing_log s' = TimingStallLoadAccount latency :: timing_log s /\
  callback_calls s' =
    (if misaligned_size (lsu s) =? 0
     then StallCallbackCall (stall_callback (lsu s)) :: callback_calls s
     else callback_calls s).
Proof.
  cbv zeta. unfold data_response. simpl.
  destruct (misaligned_size (lsu s) =? 0).
  - unfold call_stall_callback, stalled_decs, timing_log, callback_calls.
    simpl. destruct (stall_callback (lsu s)); repeat split; reflexivity.
  - repeat split; reflexivity.
Qed.

Lemma exec_misaligned_calls (r : mem_reply) (s : Iss) :
  callback_calls (exec_misaligned cfg r s) =
  (if status_eqb (reply_status r) IO_REQ_OK
   then StallCallbackCall (stall_callback (lsu s)) :: callback_calls s
   else callback_calls s).
Proof.
  unfold exec_misaligned, data_req_aligned, data_itf_req.
  destruct r as [st lat store]; destruct st; simpl; try reflexivity.
  unfold call_stall_callback, callback_calls.
  destruct (0 <? lat); simpl; destruct (stall_callback (lsu s)); reflexivity.
Qed.

Lemma data_req_calls (r : mem_reply) (addr data_ptr size : Z)
    (is_write : bool) (s : Iss) :
  callback_calls (snd (data_req cfg r addr data_ptr size is_write s)) =
  callback_calls s.
Proof.
  unfold data_req, data_misaligned_req, data_req_aligned, data_itf_req.
  destruct (and_ADDR_MASK cfg addr =? _);
    destruct r as [st lat store]; destruct st; simpl;
    try destruct (0 <? lat); reflexivity.
Qed.

Lemma atomic_calls (r : mem_reply) (addr size reg_in reg_out opcode : Z)
    (s : Iss) :
  callback_calls (atomic cfg r addr size reg_in reg_out opcode s) =
  callback_calls s.
Proof.
  unfold atomic, data_itf_req.
  destruct (opcode =? LR cfg);
    [destruct (fst (load_virt_to_phys cfg addr))
    | destruct (fst (store_virt_to_phys cfg addr))];
    try reflexivity;
    destruct r as [st lat store]; destruct st; simpl;
    destruct (size =? ISS_REG_WIDTH cfg / 8); simpl;
    try destruct (0 <? lat); reflexivity.
Qed.

(** One call into the LSU runs the resume action at most once, and only
    when a transaction was outstanding. *)
Lemma step_resumes (a : action) (w w' : world) :
  step cfg a w = Some w' ->
  (length (callback_calls (iss w')) + outstanding (phase w') <=
   length (callback_calls (iss w)) + outstanding (phase w)
   + (if is_submission a then 1 else 0))%nat.
Proof.
  destruct w as [p s]. unfold step. simpl.
  destruct p, a; try discriminate; intros Hstep.
  - injection Hstep as <-. unfold reset, callback_calls.
    destruct active; simpl; lia.
  - pose proof (data_req_calls r addr data_ptr size is_write s) as Hc.
    destruct (data_req cfg r addr data_ptr size is_write s) as [err s1].
    injection Hstep as <-. simpl in *. rewrite Hc.
    destruct (status_eqb (reply_status r) IO_REQ_PENDING);
      [| destruct (status_eqb err IO_REQ_PENDING)]; simpl; lia.
  - injection Hstep as <-. simpl. rewrite atomic_calls.
    unfold owed.
    destruct (translation_faults cfg addr opcode);
      [| destruct (status_eqb (reply_status r) IO_REQ_PENDING)]; simpl; lia.
  - injection Hstep as <-. simpl. rewrite exec_misaligned_calls.
    unfold owed. destruct (reply_status r); simpl; lia.
  - injection Hstep as <-. simpl. unfold data_grant. lia.
  - injection Hstep as <-. simpl.
    destruct (data_response_effect latency (set_regfile store s))
      as (_ & _ & Hc).
    rewrite Hc.
    change (callback_calls (set_regfile store s)) with (callback_calls s).
    simpl. destruct (misaligned_size (lsu s) =? 0); simpl; lia.
Qed.

(** Over a whole execution the resume action runs at most once for each
    submission, plus once when a transaction was outstanding at the
    start. *)
Lemma run_resumes (acts : list action) : forall w w' : world,
  run cfg acts w = Some w' ->
  (length (callback_calls (iss w')) + outstanding (phase w') <=
   length (callback_calls (iss w)) + outstanding (phase w)
   + submissions acts)%nat.
Proof.
  induction acts as [| a acts IH]; intros w w' Hrun; simpl in Hrun.
  - injection Hrun as <-. unfold submissions. simpl. lia.
  - destruct (step cfg a w) as [w1 |] eqn:Hstep; [| discriminate].
    apply step_resumes in Hstep. apply IH in Hrun.
    unfold submissions in *. simpl.
    destruct (is_submission a); simpl in *; lia.
Qed.

(** C1, as the code has it.  The resume action never runs twice for one
    transaction: an execution runs it at most once for each submission.  It
    runs exactly once at the response when an aligned or an atomic access
    was accepted but not complete and the remaining size of the
    pending-access record was zero at submission.  For a misaligned access
    whose first half succeeded at once it runs exactly once, in the
    deferred second half, when the second sub-access succeeds at once;
    otherwise the deferred second half emits its diagnostic and does not
    run it. *)
Theorem pending_resume_once :
  (forall (acts : list action) (w w' : world),
     run cfg acts w = Some w' ->
     (length (callback_calls (iss w')) + outstanding (phase w') <=
      length (callback_calls (iss w)) + outstanding (phase w)
      + submissions acts)%nat) /\
  (forall (r : mem_reply) (addr data_ptr size : Z) (is_write : bool)
          (s : Iss) (store : (Z -> Z) -> Z -> Z) (latency : Z),
     crosses_granule cfg addr size = false ->
     reply_status r = IO_REQ_PENDING ->
     misaligned_size (lsu s) = 0 ->
     fst (data_req cfg r addr data_ptr size is_write s) = IO_REQ_PENDING /\
     exists w' : world,
       run cfg [DoDataReq r addr data_ptr size is_write;
                DoDataResponse store latency] (mkWorld Idle s) = Some w' /\
       phase w' = Idle /\
       callback_calls (iss w') =
         StallCallbackCall (stall_callback (lsu s)) :: callback_calls s) /\
  (forall (r : mem_reply) (addr size reg_in reg_out opcode : Z)
          (s : Iss) (store : (Z -> Z) -> Z -> Z) (latency : Z),
     translation_faults cfg addr opcode = false ->
     reply_status r = IO_REQ_PENDING ->
     misaligned_size (lsu s) = 0 ->
     exists w' : world,
       run cfg [DoAtomic r addr size reg_in reg_out opcode;
                DoDataResponse store latency] (mkWorld Idle s) = Some w' /\
       phase w' = Idle /\
       callback_calls (iss w') =
         StallCallbackCall (atomic_resume cfg size) :: callback_calls s) /\
  (forall (r r2 : mem_reply) (addr data_ptr size : Z) (is_write : bool)
          (s : Iss),
     crosses_granule cfg addr size = true ->
     reply_status r = IO_REQ_OK ->
     fst (data_req cfg r addr data_ptr size is_write s) = IO_REQ_PENDING /\
     exists w' : world,
       run cfg [DoDataReq r addr data_ptr size is_write;
                DoExecMisaligned r2] (mkWorld Idle s) = Some w' /\
       if status_eqb (reply_status r2) IO_REQ_OK
       then phase w' = Idle /\
            callback_calls (iss w') =
              StallCallbackCall (stall_callback (lsu s)) :: callback_calls s
       else callback_calls (iss w') = callback_calls s /\
            hd_error (diagnostics (iss w')) = Some TraceWarningUnimplemented).
Proof.
  split; [exact run_resumes |]. split; [| split].
  - intros r addr data_ptr size is_write s store latency Hroute Hst Hzero.
    unfold crosses_granule in Hroute. apply negb_false_iff in Hroute.
    unfold run, step, data_req. simpl. rewrite Hroute.
    unfold data_req_aligned, data_itf_req.
    destruct r as [st lat st_store]. simpl in *. subst st. simpl.
    split; [reflexivity |]. eexists. split; [reflexivity |].
    split; [reflexivity |]. simpl.
    unfold data_response. simpl. rewrite Hzero. simpl.
    rewrite call_stall_callback_calls. reflexivity.
  - intros r addr size reg_in reg_out opcode s store latency Hok Hst Hzero.
    unfold run, step. simpl. rewrite Hok. unfold owed. rewrite Hst. simpl.
    eexists. split; [reflexivity |]. split; [reflexivity |]. simpl.
    unfold data_response, atomic, translation_faults, data_itf_req,
      atomic_resume in *.
    destruct (opcode =? LR cfg); rewrite Hok;
      destruct r as [st lat st_store]; simpl in *; subst st; simpl;
      destruct (size =? ISS_REG_WIDTH cfg / 8); simpl; rewrite Hzero;
      reflexivity.
  - intros r r2 addr data_ptr size is_write s Hroute Hst.
    unfold crosses_granule in Hroute. apply negb_true_iff in Hroute.
    unfold run, step, data_req. simpl. rewrite Hroute.
    unfold data_misaligned_req, data_req_aligned, data_itf_req.
    destruct r as [st lat st_store]. simpl in *. subst st. simpl.
    split; [destruct (0 <? lat); reflexivity |].
    destruct (0 <? lat); simpl;
      (eexists; split; [reflexivity |]);
      simpl; rewrite exec_misaligned_calls;
      unfold owed, exec_misaligned, data_req_aligned, data_itf_req;
      destruct r2 as [st2 lat2 st_store2]; destruct st2; simpl;
      repeat split; reflexivity.
Qed.

End Resume.

(** * The properties on the 32-bit core *)

Lemma rv32_granule_fits : 0 <= granule_log2 rv32 <= ISS_REG_WIDTH rv32.
Proof. simpl. lia. Defined.

(** A store of four bytes at address 3 is split at address 4 into one byte
    and three bytes. *)
Lemma data_req_crossing_split_witness :
  let res := data_req rv32 (reply_ok 0) 3 100 4 true iss0 in
  res = data_misaligned_req rv32 (reply_ok 0) 3 100 4 true iss0 /\
  requests (snd res) = [DataReq (filled_request rv32 iss0 3 100 1 true)] /\
  misaligned_addr (lsu (snd res)) = 4 /\
  misaligned_data (lsu (snd res)) = 101 /\
  misaligned_size (lsu (snd res)) = 3 /\
  misaligned_is_write (lsu (snd res)) = true /\
  1 + 3 = 4 /\ 0 < 1 /\ 0 < 3.
Proof.
  refine (data_req_crossing_split rv32 rv32_granule_fits (reply_ok 0)
            3 100 4 true iss0 _ _ _ _).
  - simpl. lia.
  - unfold granule. simpl. lia.
  - simpl. lia.
  - vm_compute. discriminate.
Defined.

(** A load that succeeds at once with a latency of two cycles. *)
Lemma data_req_aligned_outcomes_witness :
  0 <= reply_latency (reply_ok 2) /\
  let res := data_req_aligned rv32 (reply_ok 2) 8 100 4 false iss0 in
  fst res = IO_REQ_OK /\
  timing_log (snd res) = [TimingStallLoadAccount 2] /\
  pipeline_log (snd res) = [] /\
  diagnostics (snd res) = [] /\
  callback_calls (snd res) = [].
Proof.
  split; [simpl; lia |].
  refine (data_req_aligned_outcomes rv32 (reply_ok 2) 8 100 4 false iss0 _).
  simpl. lia.
Defined.

(** A load of four bytes at address 8 stays in its granule. *)
Lemma data_req_same_granule_witness :
  let res := data_req rv32 reply_pending 8 100 4 false iss0 in
  res = data_req_aligned rv32 reply_pending 8 100 4 false iss0 /\
  requests (snd res) = [DataReq (filled_request rv32 iss0 8 100 4 false)] /\
  misaligned_size (lsu (snd res)) = 0 /\
  misaligned_data (lsu (snd res)) = 0 /\
  misaligned_addr (lsu (snd res)) = 0 /\
  misaligned_is_write (lsu (snd res)) = false.
Proof.
  refine (data_req_same_granule rv32 rv32_granule_fits reply_pending
            8 100 4 false iss0 _ _).
  - simpl. lia.
  - vm_compute. reflexivity.
Defined.

(** A rejected load of four bytes at address 8. *)
Lemma data_req_rejected_effects_witness :
  let res := data_req rv32 reply_invalid 8 100 4 false iss0 in
  fst res = IO_REQ_INVALID /\
  holds (snd res) = [] /\
  callback_calls (snd res) = [] /\
  stall_callback (lsu (snd res)) = cb_load_resume /\
  stall_reg (lsu (snd res)) = 0 /\
  stall_size (lsu (snd res)) = 0 /\
  elw_stalled (lsu (snd res)) = false /\
  timing_log (snd res) = [] /\
  pipeline_log (snd res) = [] /\
  pending_access (lsu (snd res)) = (0, 0, 0, false) /\
  diagnostics (snd res) = [WarningAlways (InvalidAccess 0x1c000080 8 4 false)].
Proof.
  split; [reflexivity |].
  exact (data_req_rejected_effects rv32 reply_invalid 8 100 4 false iss0
           eq_refl).
Defined.

(** C6 as stated fails on a rejected load of four bytes at address 3: the
    call returns rejection, yet the pending-access record and the timing
    account are not as before; had the memory interface accepted the first
    byte without completing it, the instruction would be suspended as
    well. *)
Lemma rejected_misaligned_counterexample :
  let res := data_req rv32 reply_invalid 3 100 4 false iss0 in
  fst res = IO_REQ_INVALID /\
  pending_access (lsu (snd res)) = (3, 101, 4, false) /\
  pending_access (lsu iss0) = (0, 0, 0, false) /\
  timing_log (snd res) = [TimingEventMisalignedAccount 1] /\
  timing_log iss0 = [] /\
  fst (data_req rv32 reply_pending 3 100 4 false iss0) = IO_REQ_INVALID /\
  pipeline_log (snd (data_req rv32 reply_pending 3 100 4 false iss0)) =
    [ExecInsnStall].
Proof. vm_compute. repeat split; reflexivity. Qed.

(** A faulting translation of a load-reserved of four bytes. *)
Lemma atomic_translation_witness :
  let s' := atomic rv32_faulting (reply_ok 0) 16 4 4 5 2 iss0 in
  translation_faults rv32_faulting 16 2 = true /\
  translations s' = [MmuLoadVirtToPhys 16] /\
  requests s' = [] /\
  timing_log s' = [] /\
  pipeline_log s' = [] /\
  callback_calls s' = [] /\
  lsu s' = lsu iss0 /\
  regfile s' = regfile iss0.
Proof.
  split; [reflexivity |].
  split.
  - exact (proj1 (atomic_translation rv32_faulting (reply_ok 0)
                    16 4 4 5 2 iss0)).
  - exact (proj2 (atomic_translation rv32_faulting (reply_ok 0)
                    16 4 4 5 2 iss0) eq_refl).
Defined.

(** An atomic add of two bytes that returns [0x8001] in register 5, at
    once and with a response. *)
Lemma atomic_sign_extension_witness :
  (let r := mk_reply IO_REQ_OK 0 (returns_in 5 0x8001) in
   let s' := atomic rv32 r 16 2 4 5 5 iss0 in
   get_reg s' 5 = 0xffff8001 /\ pipeline_log s' = []) /\
  (exists w' : world,
     run rv32 [DoAtomic reply_pending 16 2 4 5 5;
               DoDataResponse (returns_in 5 0x8001) 3] (mkWorld Idle iss0) =
       Some w' /\
     phase w' = Idle /\
     get_reg (iss w') 5 = 0xffff8001 /\
     terminations (iss w') = [ExecInsnTerminate]).
Proof.
  assert (Hsize : 0 < 2 <= ISS_REG_WIDTH rv32 / 8)
    by (vm_compute; split; [reflexivity | discriminate]).
  assert (Hwidth : ISS_REG_WIDTH rv32 < 2 ^ 31) by (vm_compute; reflexivity).
  split.
  - exact (atomic_sign_extension rv32
             (mk_reply IO_REQ_OK 0 (returns_in 5 0x8001)) 16 2 4 5 5 iss0
             eq_refl Hsize Hwidth).
  - exact (proj2 (proj2 (proj2
             (atomic_sign_extension rv32 reply_pending 16 2 4 5 5 iss0
                eq_refl Hsize Hwidth)))
             (returns_in 5 0x8001) 3 eq_refl).
Defined.

(** An aligned load accepted but not complete, then its response; a store
    split at address 4 whose halves both succeed at once. *)
Lemma pending_resume_once_witness :
  (fst (data_req rv32 reply_pending 8 100 4 false iss0) = IO_REQ_PENDING /\
   exists w' : world,
     run rv32 [DoDataReq reply_pending 8 100 4 false;
               DoDataResponse (fun rf => rf) 5] (mkWorld Idle iss0) =
       Some w' /\
     phase w' = Idle /\
     callback_calls (iss w') = [StallCallbackCall cb_load_resume]) /\
  (fst (data_req rv32 (reply_ok 0) 3 100 4 true iss0) = IO_REQ_PENDING /\
   exists w' : world,
     run rv32 [DoDataReq (reply_ok 0) 3 100 4 true;
               DoExecMisaligned (reply_ok 0)] (mkWorld Idle iss0) =
       Some w' /\
     phase w' = Idle /\
     callback_calls (iss w') = [StallCallbackCall cb_load_resume]).
Proof.
  split.
  - exact (proj1 (proj2 (pending_resume_once rv32))
             reply_pending 8 100 4 false iss0 (fun rf => rf) 5
             eq_refl eq_refl eq_refl).
  - exact (proj2 (proj2 (proj2 (pending_resume_once rv32)))
             (reply_ok 0) (reply_ok 0) 3 100 4 true iss0 eq_refl eq_refl).
Defined.

(** C1 as stated fails on a store split at address 4 whose second half is
    rejected: the submission returned pending, nothing is outstanding at
    the end, and the resume action never ran. *)
Lemma pending_without_resume_counterexample :
  fst (data_req rv32 (reply_ok 0) 3 100 4 true iss0) = IO_REQ_PENDING /\
  outcome (run rv32 [DoDataReq (reply_ok 0) 3 100 4 true;
                     DoExecMisaligned reply_invalid] (mkWorld Idle iss0)) =
    Some (Idle, 3, []).
Proof. vm_compute. split; reflexivity. Qed.

(** C2 on the code.  After a reset, a store split at address 4 completes
    with both halves succeeding at once.  The remaining size is still 3.
    A load at address 8, in one granule, is then accepted but not complete:
    its response does not run the resume action, which ran once, for the
    store.  The same holds when the second half itself completes with a
    response: the remaining size is 3 and the resume action does not run. *)
Theorem stale_remaining_size :
  outcome (run rv32 [DoReset true;
                     DoDataReq (reply_ok 0) 3 100 4 true;
                     DoExecMisaligned (reply_ok 0)] (mkWorld Idle iss0)) =
    Some (Idle, 3, [StallCallbackCall cb_load_resume]) /\
  crosses_granule rv32 8 4 = false /\
  outcome (run rv32 [DoReset true;
                     DoDataReq (reply_ok 0) 3 100 4 true;
                     DoExecMisaligned (reply_ok 0);
                     DoDataReq reply_pending 8 100 4 false;
                     DoDataResponse (fun rf => rf) 5] (mkWorld Idle iss0)) =
    Some (Idle, 3, [StallCallbackCall cb_load_resume]) /\
  outcome (run rv32 [DoReset true;
                     DoDataReq (reply_ok 0) 3 100 4 true;
                     DoExecMisaligned reply_pending;
                     DoDataResponse (fun rf => rf) 5] (mkWorld Idle iss0)) =
    Some (Idle, 3, []).
Proof. vm_compute. repeat split; reflexivity. Qed.

(** * Further properties of the LSU *)

(** ** Routing *)

Section Routing.

Variable cfg : config.

Hypothesis granule_smaller : 0 <= granule_log2 cfg < ISS_REG_WIDTH cfg.

(** An access that fits in what is left of the granule it starts in is not
    split. *)
Lemma fits_in_granule (addr size : Z) :
  0 <= addr < 2 ^ ISS_REG_WIDTH cfg ->
  0 < size ->
  addr mod granule cfg + size <= granule cfg ->
  crosses_granule cfg addr size = false.
Proof.
  intros Ha Hs Hin.
  assert (Hfits : 0 <= granule_log2 cfg <= ISS_REG_WIDTH cfg) by lia.
  pose proof (granule_pos cfg Hfits) as Hg.
  pose proof (addr_space_multiple cfg Hfits) as HM.
  unfold crosses_granule.
  rewrite same_mask_same_granule
    by (assumption || apply wrap_addr_range; assumption).
  unfold granule_index, wrap_addr.
  set (G := granule cfg) in *.
  set (N := 2 ^ (ISS_REG_WIDTH cfg - granule_log2 cfg)) in *.
  assert (HN : 0 < N) by (apply Z.pow_pos_nonneg; lia).
  rewrite HM in *.
  pose proof (Z.div_mod addr G ltac:(lia)) as Hdm.
  pose proof (Z.mod_pos_bound addr G Hg) as Hr.
  set (q := addr / G) in *. set (r := addr mod G) in *.
  assert (Hq : 0 <= q < N) by nia.
  rewrite (Z.mod_small (addr + size - 1)) by nia.
  assert (Hb : (addr + size - 1) / G = q).
  { symmetry. apply Z.div_unique with (r + size - 1); lia. }
  rewrite Hb, Z.eqb_refl. reflexivity.
Qed.

(** The test of [data_req] on an access of at most one granule: it leaves
    the granule exactly when it does not fit in what is left of it. *)
Lemma crosses_granule_iff (addr size : Z) :
  0 <= addr < 2 ^ ISS_REG_WIDTH cfg ->
  0 < size <= granule cfg ->
  crosses_granule cfg addr size = (granule cfg <? addr mod granule cfg + size).
Proof.
  intros Ha Hs.
  destruct (Z.ltb_spec (granule cfg) (addr mod granule cfg + size))
    as [Hover | Hin]; [| apply fits_in_granule; lia].
  assert (Hfits : 0 <= granule_log2 cfg <= ISS_REG_WIDTH cfg) by lia.
  pose proof (granule_pos cfg Hfits) as Hg.
  pose proof (addr_space_multiple cfg Hfits) as HM.
  unfold crosses_granule.
  rewrite same_mask_same_granule
    by (assumption || apply wrap_addr_range; assumption).
  unfold granule_index, wrap_addr.
  set (G := granule cfg) in *.
  set (N := 2 ^ (ISS_REG_WIDTH cfg - granule_log2 cfg)) in *.
  assert (HN : 2 <= N).
  { unfold N. change 2 with (2 ^ 1).
    apply Z.pow_le_mono_r; lia. }
  rewrite HM in *.
  pose proof (Z.div_mod addr G ltac:(lia)) as Hdm.
  pose proof (Z.mod_pos_bound addr G Hg) as Hr.
  set (q := addr / G) in *. set (r := addr mod G) in *.
  assert (Hq : 0 <= q < N) by nia.
  apply negb_true_iff, Z.eqb_neq.
  destruct (Z_lt_le_dec (addr + size - 1) (G * N)) as [Hlow | Hhigh].
  - rewrite (Z.mod_small (addr + size - 1)) by lia.
    assert (Hb : q + 1 <= (addr + size - 1) / G)
      by (apply Z.div_le_lower_bound; nia).
    lia.
  - assert (Hb : (addr + size - 1) mod (G * N) = addr + size - 1 - G * N).
    { symmetry. apply Z.mod_unique with 1; nia. }
    rewrite Hb.
    assert (Hb0 : (addr + size - 1 - G * N) / G = 0)
      by (apply Z.div_small; nia).
    rewrite Hb0.
    assert (Hq1 : q = N - 1) by nia.
    lia.
Qed.

(** X1: [data_req] splits an access of at most one granule exactly when it
    does not fit in what is left of the granule it starts in: it then goes
    to the misaligned path, and to the aligned path otherwise. *)
Theorem data_req_route (r : mem_reply) (addr data_ptr size : Z)
    (is_write : bool) (s : Iss) :
  0 <= addr < 2 ^ ISS_REG_WIDTH cfg ->
  0 < size <= granule cfg ->
  data_req cfg r addr data_ptr size is_write s =
  if granule cfg <? addr mod granule cfg + size
  then data_misaligned_req cfg r addr data_ptr size is_write s
  else data_req_aligned cfg r addr data_ptr size is_write s.
Proof.
  intros Ha Hs.
  rewrite <- (crosses_granule_iff addr size Ha Hs).
  unfold data_req, crosses_granule.
  destruct (and_ADDR_MASK cfg addr =?
            and_ADDR_MASK cfg (wrap_addr cfg (addr + size - 1)));
    reflexivity.
Qed.

(** X2: A naturally aligned access, of a power-of-two size that is at most the
    granule and at an address that is a multiple of that size, is never
    split: [data_req] hands it to the aligned path. *)
Theorem data_req_naturally_aligned (r : mem_reply) (addr data_ptr : Z)
    (size_log2 : Z) (is_write : bool) (s : Iss) :
  0 <= addr < 2 ^ ISS_REG_WIDTH cfg ->
  0 <= size_log2 <= granule_log2 cfg ->
  addr mod 2 ^ size_log2 = 0 ->
  data_req cfg r addr data_ptr (2 ^ size_log2) is_write s =
  data_req_aligned cfg r addr data_ptr (2 ^ size_log2) is_write s.
Proof.
  intros Ha Hj Hal.
  assert (Hfits : 0 <= granule_log2 cfg <= ISS_REG_WIDTH cfg) by lia.
  pose proof (granule_pos cfg Hfits) as Hg.
  set (S := 2 ^ size_log2) in *.
  assert (HS : 0 < S) by (apply Z.pow_pos_nonneg; lia).
  assert (HG : granule cfg = S * 2 ^ (granule_log2 cfg - size_log2)).
  { unfold granule, S. rewrite <- Z.pow_add_r by lia. f_equal. lia. }
  set (K := 2 ^ (granule_log2 cfg - size_log2)) in *.
  assert (HK : 0 < K) by (apply Z.pow_pos_nonneg; lia).
  assert (Hmod : addr mod granule cfg + S <= granule cfg).
  { apply Z.mod_divide in Hal; [| lia]. destruct Hal as [m Hm].
    rewrite HG. subst addr.
    replace (m * S) with (S * m) by lia.
    rewrite Z.mul_mod_distr_l by lia.
    pose proof (Z.mod_pos_bound m K HK). nia. }
  assert (Hno : crosses_granule cfg addr S = false)
    by (apply fits_in_granule; lia).
  unfold crosses_granule in Hno. apply negb_false_iff in Hno.
  unfold data_req. fold S. rewrite Hno. reflexivity.
Qed.

End Routing.

(** ** Requests *)

Section Requests.

Variable cfg : config.

(** X3: Whatever the route and whatever the memory interface answers,
    [data_req] submits exactly one request, which starts at the address and
    the buffer of the access and has its direction; it does not run or
    select a resume action, asks for no translation, and the registers are
    changed by the transfer only. *)
Theorem data_req_one_request (r : mem_reply) (addr data_ptr size : Z)
    (is_write : bool) (s : Iss) :
  let s' := snd (data_req cfg r addr data_ptr size is_write s) in
  (exists size' : Z,
     requests s' =
       DataReq (filled_request cfg s addr data_ptr size' is_write)
         :: requests s) /\
  callback_calls s' = callback_calls s /\
  translations s' = translations s /\
  stall_callback (lsu s') = stall_callback (lsu s) /\
  stall_reg (lsu s') = stall_reg (lsu s) /\
  stall_size (lsu s') = stall_size (lsu s) /\
  elw_stalled (lsu s') = elw_stalled (lsu s) /\
  regfile s' = reply_store r (regfile s).
Proof.
  unfold data_req, data_misaligned_req, data_req_aligned, data_itf_req,
    filled_request.
  destruct (and_ADDR_MASK cfg addr =? _);
    destruct r as [st lat store]; destruct st; simpl;
    try destruct (0 <? lat); simpl;
    (split; [eexists; reflexivity | repeat split; reflexivity]).
Qed.

(** X5: The deferred second half accounts one load event and one cycle, then
    submits the access saved in the pending-access record, which it leaves as
    it is.  When that access succeeds at once, the latency is accounted if
    it is not zero, the trace dump is enabled, the resume action runs once
    and the pipeline is switched to full mode last.  Otherwise the
    diagnostic is emitted, the resume action does not run and the pipeline
    is not switched. *)
Theorem exec_misaligned_outcomes (r : mem_reply) (s : Iss) :
  0 <= reply_latency r ->
  let s' := exec_misaligned cfg r s in
  requests s' =
    DataReq (filled_request cfg s (misaligned_addr (lsu s))
               (misaligned_data (lsu s)) (misaligned_size (lsu s))
               (misaligned_is_write (lsu s))) :: requests s /\
  pending_access (lsu s') = pending_access (lsu s) /\
  match reply_status r with
  | IO_REQ_OK =>
      timing_log s' =
        (if reply_latency r =? 0 then []
         else [TimingStallLoadAccount (reply_latency r)])
        ++ TimingCycleAccount :: TimingEventLoadAccount 1 :: timing_log s /\
      trace_dump_trace_enabled s' = true /\
      callback_calls s' =
        StallCallbackCall (stall_callback (lsu s)) :: callback_calls s /\
      terminations s' = ExecInsnTerminate :: terminations s /\
      hd_error (pipeline_log s') = Some ExecSwitchToFullMode /\
      diagnostics s' = diagnostics s
  | IO_REQ_INVALID =>
      timing_log s' =
        TimingCycleAccount :: TimingEventLoadAccount 1 :: timing_log s /\
      trace_dump_trace_enabled s' = trace_dump_trace_enabled s /\
      callback_calls s' = callback_calls s /\
      pipeline_log s' = pipeline_log s /\
      hd_error (diagnostics s') = Some TraceWarningUnimplemented
  | IO_REQ_PENDING =>
      timing_log s' =
        TimingCycleAccount :: TimingEventLoadAccount 1 :: timing_log s /\
      trace_dump_trace_enabled s' = trace_dump_trace_enabled s /\
      callback_calls s' = callback_calls s /\
      pipeline_log s' = ExecInsnStall :: pipeline_log s /\
      hd_error (diagnostics s') = Some TraceWarningUnimplemented
  end.
Proof.
  intros Hlat. unfold exec_misaligned, data_req_aligned, data_itf_req,
    filled_request.
  destruct r as [st lat store]. simpl in *.
  destruct st; simpl; try (repeat split; reflexivity).
  destruct (Z.ltb_spec 0 lat) as [Hpos | Hzero];
    destruct (Z.eqb_spec lat 0) as [Heq | Hne]; try lia;
    unfold call_stall_callback; simpl;
    destruct (stall_callback (lsu s)); repeat split; reflexivity.
Qed.

Hypothesis granule_fits : 0 <= granule_log2 cfg <= ISS_REG_WIDTH cfg.

(** X4: The two requests of a split access tile it: when the first half of an
    access of at most one granule succeeds at once, the request submitted
    by [data_req] and the one submitted by the deferred second half have
    positive sizes that add up to the size of the access, the second starts
    at the address and at the buffer position where the first ends, and
    both have the direction of the access. *)
Theorem split_requests_tile (r r2 : mem_reply) (addr data_ptr size : Z)
    (is_write : bool) (s : Iss) :
  0 <= addr < 2 ^ ISS_REG_WIDTH cfg ->
  0 < size <= granule cfg ->
  size < 2 ^ 31 ->
  crosses_granule cfg addr size = true ->
  reply_status r = IO_REQ_OK ->
  let s1 := snd (data_req cfg r addr data_ptr size is_write s) in
  let s2 := exec_misaligned cfg r2 s1 in
  exists q1 q2 : vp_io_req,
    requests s2 = DataReq q2 :: DataReq q1 :: requests s /\
    req_addr q1 = addr /\ req_data q1 = data_ptr /\
    req_is_write q1 = is_write /\ 0 < req_size q1 /\
    req_addr q2 = wrap_addr cfg (addr + req_size q1) /\
    req_data q2 = data_ptr + req_size q1 /\
    req_is_write q2 = is_write /\ 0 < req_size q2 /\
    req_size q1 + req_size q2 = size.
Proof.
  intros Ha Hs Hint Hroute Hst. cbv zeta.
  assert (Hcross : granule_index cfg addr <>
                   granule_index cfg (wrap_addr cfg (addr + size - 1))).
  { unfold crosses_granule in Hroute. apply negb_true_iff in Hroute.
    rewrite same_mask_same_granule in Hroute
      by (assumption || apply wrap_addr_range; assumption).
    apply Z.eqb_neq. exact Hroute. }
  destruct (next_granule_split cfg granule_fits addr size Ha Hs Hcross)
    as (Ha1 & Hsize0 & Hbound).
  pose proof (granule_pos cfg granule_fits) as Hg.
  assert (Hend : wrap_addr cfg (granule cfg * (granule_index cfg addr + 1)) =
                 wrap_addr cfg (addr + (granule cfg - addr mod granule cfg))).
  { f_equal. unfold granule_index.
    pose proof (Z.div_mod addr (granule cfg) ltac:(lia)). lia. }
  unfold crosses_granule in Hroute. apply negb_true_iff in Hroute.
  unfold data_req. rewrite Hroute.
  unfold data_misaligned_req. rewrite Ha1, Hsize0.
  rewrite (wrap_int_small (granule cfg - addr mod granule cfg)) by lia.
  rewrite (wrap_int_small (size - _)) by lia.
  rewrite Hend.
  unfold exec_misaligned, data_req_aligned, data_itf_req.
  destruct r as [st lat store]. simpl in Hst. subst st. simpl.
  destruct (0 <? lat); simpl;
    destruct r2 as [st2 lat2 store2]; destruct st2; simpl;
    try destruct (0 <? lat2); simpl;
    unfold call_stall_callback; simpl;
    try destruct (stall_callback (lsu s)); simpl;
    (do 2 eexists; split; [reflexivity | simpl; repeat split; lia]).
Qed.

End Requests.

(** ** Resume actions and completion *)

Section Actions.

Variable cfg : config.

(** X6: Each of the five resume actions terminates the instruction exactly
    once; none submits a request, calls the timing model or emits a
    diagnostic.  Only the wait-for-event action changes the LSU, clearing
    its flag and the pending wait-for-event instruction and entering the
    busy state last.  Only the sign-extending and the boxing action change
    a register, and only the one recorded in [stall_reg], which they
    re-encode at [8 * stall_size] bits. *)
Theorem resume_action_effect (s : Iss) :
  let s' := call_stall_callback cfg s in
  let reg := stall_reg (lsu s) in
  let bits := wrap_int (stall_size (lsu s) * 8) in
  terminations s' = ExecInsnTerminate :: terminations s /\
  requests s' = requests s /\
  timing_log s' = timing_log s /\
  diagnostics s' = diagnostics s /\
  (forall other : Z, other <> reg -> regfile s' other = regfile s other) /\
  match stall_callback (lsu s) with
  | cb_store_resume | cb_load_resume =>
      lsu s' = lsu s /\ regfile s' reg = regfile s reg /\
      exec_elw_insn s' = exec_elw_insn s
  | cb_elw_resume =>
      lsu s' = set_elw_stalled false (lsu s) /\
      regfile s' reg = regfile s reg /\
      exec_elw_insn s' = None /\
      hd_error (pipeline_log s') = Some ExecBusyEnter
  | cb_load_signed_resume =>
      lsu s' = lsu s /\
      regfile s' reg = iss_get_signed_value cfg (regfile s reg) bits /\
      exec_elw_insn s' = exec_elw_insn s
  | cb_load_boxed_resume =>
      lsu s' = lsu s /\
      regfile s' reg = iss_get_boxed_value cfg (regfile s reg) bits /\
      exec_elw_insn s' = exec_elw_insn s
  end.
Proof.
  cbv zeta. unfold call_stall_callback.
  destruct (stall_callback (lsu s)) eqn:Hcb; simpl;
    unfold get_reg; simpl; rewrite ?Z.eqb_refl;
    repeat split; try reflexivity;
    try (destruct (lsu s); simpl in *; subst; reflexivity);
    intros other Hother;
    destruct (Z.eqb_spec other (stall_reg (lsu s))); congruence.
Qed.

(** X7: The asynchronous completion decrements the pipeline's count of
    suspensions before anything else and accounts the latency.  While the
    remaining size of the pending-access record is not zero it does nothing
    more: the instruction is not terminated and the LSU and the registers
    are as before.  When it is zero the resume action runs once and
    terminates the instruction. *)
Theorem data_response_outcomes (latency : Z) (s : Iss) :
  let s' := data_response cfg latency s in
  (exists calls : list event,
     pipeline_log s' = calls ++ ExecStalledDec :: pipeline_log s) /\
  timing_log s' = TimingStallLoadAccount latency :: timing_log s /\
  requests s' = requests s /\
  pending_access (lsu s') = pending_access (lsu s) /\
  if misaligned_size (lsu s) =? 0
  then callback_calls s' =
         StallCallbackCall (stall_callback (lsu s)) :: callback_calls s /\
       terminations s' = ExecInsnTerminate :: terminations s
  else callback_calls s' = callback_calls s /\
       terminations s' = terminations s /\
       lsu s' = lsu s /\
       regfile s' = regfile s.
Proof.
  cbv zeta. unfold data_response. simpl.
  destruct (misaligned_size (lsu s) =? 0).
  - unfold call_stall_callback. simpl.
    destruct (stall_callback (lsu s)); simpl;
      (split; [eexists; unfold pipeline_log; simpl;
               first [ exact (eq_refl : _ = [_] ++ _)
                     | exact (eq_refl : _ = [_; _] ++ _) ]
              | repeat split; reflexivity]).
  - split; [exists []; reflexivity | repeat split; reflexivity].
Qed.

(** X8: With a translation that succeeds, [atomic] submits exactly one request.
    It carries the address as given to [atomic], not the translated one,
    the size and the opcode, the storage of the source register as data and
    that of the destination register as second data, and the hart
    identifier as initiator.  The pending-access record and the
    wait-for-event flag are as before, no hold is taken and no resume action
    runs. *)
Theorem atomic_request (r : mem_reply)
    (addr size reg_in reg_out opcode : Z) (s : Iss) :
  translation_faults cfg addr opcode = false ->
  let s' := atomic cfg r addr size reg_in reg_out opcode s in
  let q := filled_atomic_request cfg s addr size reg_in reg_out opcode in
  requests s' = DataReq q :: requests s /\
  req_addr q = addr /\ req_size q = size /\ req_opcode q = opcode /\
  req_data q = reg_ref cfg reg_in /\
  req_second_data q = reg_ref cfg reg_out /\
  req_initiator q = csr_mhartid s /\
  pending_access (lsu s') = pending_access (lsu s) /\
  elw_stalled (lsu s') = elw_stalled (lsu s) /\
  holds s' = holds s /\
  callback_calls s' = callback_calls s.
Proof.
  intros Hok. unfold atomic, translation_faults, data_itf_req,
    filled_atomic_request in *.
  destruct (opcode =? LR cfg); rewrite Hok;
    destruct r as [st lat store]; destruct st; simpl;
    destruct (size =? ISS_REG_WIDTH cfg / 8); simpl;
    try destruct (0 <? lat); simpl; repeat split; reflexivity.
Qed.

(** X9: What [atomic] does with an answer that is not pending.  On success the
    latency is accounted exactly when it is not zero, the pipeline is not
    called and the selected resume action is as before.  On rejection one
    diagnostic with program counter, address, size and opcode is emitted;
    the timing model and the pipeline are not called, the selected resume
    action is as before and the registers are changed by the transfer
    only, without sign extension. *)
Theorem atomic_immediate_outcomes (r : mem_reply)
    (addr size reg_in reg_out opcode : Z) (s : Iss) :
  translation_faults cfg addr opcode = false ->
  0 <= reply_latency r ->
  let s' := atomic cfg r addr size reg_in reg_out opcode s in
  match reply_status r with
  | IO_REQ_OK =>
      timing_log s' =
        (if reply_latency r =? 0 then []
         else [TimingStallLoadAccount (reply_latency r)]) ++ timing_log s /\
      pipeline_log s' = pipeline_log s /\
      diagnostics s' = diagnostics s /\
      stall_callback (lsu s') = stall_callback (lsu s) /\
      stall_reg (lsu s') = stall_reg (lsu s) /\
      stall_size (lsu s') = stall_size (lsu s)
  | IO_REQ_INVALID =>
      diagnostics s' =
        WarningAlways (InvalidAtomicAccess (exec_current_insn_addr s) addr
                                           size opcode) :: diagnostics s /\
      timing_log s' = timing_log s /\
      pipeline_log s' = pipeline_log s /\
      stall_callback (lsu s') = stall_callback (lsu s) /\
      stall_reg (lsu s') = stall_reg (lsu s) /\
      stall_size (lsu s') = stall_size (lsu s) /\
      regfile s' = reply_store r (regfile s)
  | IO_REQ_PENDING => True
  end.
Proof.
  intros Hok Hlat. unfold atomic, translation_faults, data_itf_req in *.
  destruct (opcode =? LR cfg); rewrite Hok;
    destruct r as [st lat store]; simpl in *; destruct st; simpl; trivial;
    try (repeat split; reflexivity);
    destruct (size =? ISS_REG_WIDTH cfg / 8); simpl;
    destruct (Z.ltb_spec 0 lat) as [Hpos | Hzero];
    destruct (Z.eqb_spec lat 0) as [Heq | Hne]; try lia;
    simpl; repeat split; reflexivity.
Qed.

End Actions.

(** ** The remaining size over executions *)

Section RemainingSize.

Variable cfg : config.

(** Only an active reset and a submission that is split write the remaining
    size of the pending-access record: every other call leaves it as it
    is. *)
Lemma step_keeps_remaining_size (a : action) (w w' : world) :
  step cfg a w = Some w' ->
  writes_remaining_size cfg a = false ->
  misaligned_size (lsu (iss w')) = misaligned_size (lsu (iss w)).
Proof.
  destruct w as [p s]. unfold step, writes_remaining_size. simpl.
  destruct p, a; try discriminate; intros Hstep Hkeep.
  - injection Hstep as <-. subst active. reflexivity.
  - unfold crosses_granule in Hkeep. apply negb_false_iff in Hkeep.
    unfold data_req in Hstep. rewrite Hkeep in Hstep.
    pose proof (data_req_aligned_frame cfg r addr data_ptr size is_write s)
      as (_ & _ & Hrec & _).
    destruct (data_req_aligned cfg r addr data_ptr size is_write s)
      as [err s1].
    injection Hstep as <-. simpl in *.
    unfold pending_access in Hrec. congruence.
  - injection Hstep as <-. simpl.
    unfold atomic, data_itf_req.
    destruct (opcode =? LR cfg);
      [destruct (fst (load_virt_to_phys cfg addr))
      | destruct (fst (store_virt_to_phys cfg addr))];
      try reflexivity;
      destruct r as [st lat store]; destruct st; simpl;
      destruct (size =? ISS_REG_WIDTH cfg / 8); simpl;
      try destruct (0 <? lat); reflexivity.
  - injection Hstep as <-. simpl.
    unfold exec_misaligned, data_req_aligned, data_itf_req.
    destruct r as [st lat store]; destruct st; simpl; try reflexivity.
    unfold call_stall_callback.
    destruct (0 <? lat); simpl; destruct (stall_callback (lsu s));
      reflexivity.
  - injection Hstep as <-. reflexivity.
  - injection Hstep as <-. simpl.
    unfold data_response. simpl.
    destruct (misaligned_size (lsu s) =? 0); [| reflexivity].
    unfold call_stall_callback. simpl.
    destruct (stall_callback (lsu s)); reflexivity.
Qed.

(** X10: Over an execution without an active reset and without a split
    submission the remaining size of the pending-access record does not
    change. *)
Theorem remaining_size_writers (acts : list action) : forall w w' : world,
  run cfg acts w = Some w' ->
  forallb (fun a => negb (writes_remaining_size cfg a)) acts = true ->
  misaligned_size (lsu (iss w')) = misaligned_size (lsu (iss w)).
Proof.
  induction acts as [| a acts IH]; intros w w' Hrun Hall; simpl in *.
  - injection Hrun as <-. reflexivity.
  - destruct (step cfg a w) as [w1 |] eqn:Hstep; [| discriminate].
    apply andb_true_iff in Hall. destruct Hall as [Ha Hall].
    apply negb_true_iff in Ha.
    rewrite (IH w1 w' Hrun Hall).
    exact (step_keeps_remaining_size a w w1 Hstep Ha).
Qed.

(** X11: Once a split access has left the remaining size non-zero, no response
    resumes an instruction: in an execution that starts with no deferred
    second half outstanding and has no active reset and no split
    submission, the resume action never runs and no instruction is
    terminated, however many accesses are accepted and completed. *)
Theorem stale_size_blocks_resume (acts : list action) : forall w w' : world,
  run cfg acts w = Some w' ->
  forallb (fun a => negb (writes_remaining_size cfg a)) acts = true ->
  phase w <> WaitingSplit ->
  misaligned_size (lsu (iss w)) <> 0 ->
  callback_calls (iss w') = callback_calls (iss w) /\
  terminations (iss w') = terminations (iss w).
Proof.
  induction acts as [| a acts IH]; intros w w' Hrun Hall Hph Hsz;
    simpl in *.
  - injection Hrun as <-. split; reflexivity.
  - destruct (step cfg a w) as [w1 |] eqn:Hstep; [| discriminate].
    apply andb_true_iff in Hall. destruct Hall as [Ha Hall].
    apply negb_true_iff in Ha.
    pose proof (step_keeps_remaining_size a w w1 Hstep Ha) as Hkeep.
    assert (Hone : phase w1 <> WaitingSplit /\
                   callback_calls (iss w1) = callback_calls (iss w) /\
                   terminations (iss w1) = terminations (iss w)).
    { clear IH Hrun Hall Hkeep.
      destruct w as [p s]. unfold step, writes_remaining_size in *.
      simpl in *.
      destruct p, a; try discriminate; try contradiction.
      - injection Hstep as <-. simpl. subst active.
        (split; [discriminate | split; reflexivity]).
      - unfold crosses_granule in Ha. apply negb_false_iff in Ha.
        unfold data_req in Hstep. rewrite Ha in Hstep.
        unfold data_req_aligned, data_itf_req in Hstep.
        destruct r as [st lat store]; destruct st; simpl in Hstep;
          try destruct (0 <? lat); injection Hstep as <-; simpl;
          (split; [discriminate | split; reflexivity]).
      - injection Hstep as <-. simpl. unfold owed.
        split.
        + destruct (translation_faults cfg addr opcode);
            [| destruct (status_eqb (reply_status r) IO_REQ_PENDING)];
            discriminate.
        + unfold atomic, data_itf_req.
          destruct (opcode =? LR cfg);
            [destruct (fst (load_virt_to_phys cfg addr))
            | destruct (fst (store_virt_to_phys cfg addr))];
            try (split; reflexivity);
            destruct r as [st lat store]; destruct st; simpl;
            destruct (size =? ISS_REG_WIDTH cfg / 8); simpl;
            try destruct (0 <? lat); split; reflexivity.
      - injection Hstep as <-. simpl.
        (split; [discriminate | split; reflexivity]).
      - injection Hstep as <-. simpl. unfold data_response. simpl.
        apply Z.eqb_neq in Hsz. rewrite Hsz.
        (split; [discriminate | split; reflexivity]). }
    destruct Hone as (Hph1 & Hc1 & Ht1).
    rewrite <- Hkeep in Hsz.
    destruct (IH w1 w' Hrun Hall Hph1 Hsz) as [Hc Ht].
    split; congruence.
Qed.

(** X12: An active reset brings the resume back: whatever the state before it,
    an aligned access submitted right after the reset and accepted but not
    complete is resumed exactly once by its response. *)
Theorem reset_then_pending_resumes (r : mem_reply) (addr data_ptr size : Z)
    (is_write : bool) (s : Iss) (store : (Z -> Z) -> Z -> Z) (latency : Z) :
  crosses_granule cfg addr size = false ->
  reply_status r = IO_REQ_PENDING ->
  exists w' : world,
    run cfg [DoReset true; DoDataReq r addr data_ptr size is_write;
             DoDataResponse store latency] (mkWorld Idle s) = Some w' /\
    phase w' = Idle /\
    callback_calls (iss w') =
      StallCallbackCall (stall_callback (lsu s)) :: callback_calls s /\
    terminations (iss w') = ExecInsnTerminate :: terminations s.
Proof.
  intros Hroute Hst.
  unfold crosses_granule in Hroute. apply negb_false_iff in Hroute.
  unfold run, step, data_req. simpl. rewrite Hroute.
  unfold data_req_aligned, data_itf_req.
  destruct r as [st lat st_store]. simpl in *. subst st. simpl.
  eexists. split; [reflexivity |]. split; [reflexivity |]. simpl.
  unfold data_response, call_stall_callback. simpl.
  destruct (stall_callback (lsu s)); split; reflexivity.
Qed.

End RemainingSize.

(** * Properties of the power tables *)

Section Lookup.

Variable D : double_ops.
Variable A : Type.
Variable key : A -> double D.
Variable get : A -> option (double D).
Variable x : double D.

Lemma at_index_middle (pre post : list A) (t : A) :
  at_index (pre ++ t :: post) (Z.of_nat (length pre)) = Some t.
Proof.
  unfold at_index.
  destruct (Z.ltb_spec (Z.of_nat (length pre)) 0) as [Hneg | _]; [lia |].
  rewrite Nat2Z.id, nth_error_app2 by lia.
  rewrite Nat.sub_diag. reflexivity.
Qed.

(** The loop goes past a run of entries it passes and carries on behind
    it, with the last of them as lower index. *)
Lemma find_indexes_passed (pre : list A) : forall (rest : list A) (i low : Z),
  forallb (passed D key x) pre = true ->
  0 <= i ->
  i + Z.of_nat (length pre) <= 2 ^ 31 ->
  find_indexes D key (pre ++ rest) x i low =
  find_indexes D key rest x (i + Z.of_nat (length pre))
    (match pre with [] => low | _ => i + Z.of_nat (length pre) - 1 end).
Proof.
  induction pre as [| t pre IH]; intros rest i low Hpre Hi Hlen.
  - simpl. rewrite Z.add_0_r. reflexivity.
  - simpl in Hpre. apply andb_true_iff in Hpre. destruct Hpre as [Ht Hpre].
    unfold passed in Ht. apply andb_true_iff in Ht.
    destruct Ht as [Heq Hgt].
    apply negb_true_iff in Heq. apply negb_true_iff in Hgt.
    change (length (t :: pre)) with (S (length pre)) in *.
    rewrite Nat2Z.inj_succ in *.
    simpl. rewrite Heq, Hgt.
    rewrite wrap_int_small by lia.
    rewrite IH by (assumption || lia).
    replace (i + 1 + Z.of_nat (length pre))
      with (i + Z.succ (Z.of_nat (length pre))) by lia.
    destruct pre; [simpl; f_equal; lia | reflexivity].
Qed.

(** A key equal to [x], behind entries the loop passes: the entry is read
    as it is. *)
Lemma interpolated_get_equal (pre post : list A) (t : A) :
  int_indexed (pre ++ t :: post) ->
  forallb (passed D key x) pre = true ->
  double_eq D (key t) x = true ->
  interpolated_get D key get (pre ++ t :: post) x = get t.
Proof.
  unfold int_indexed. rewrite length_app. simpl length.
  rewrite Nat2Z.inj_add, Nat2Z.inj_succ. intros Hlen Hpre Heq.
  unfold interpolated_get.
  rewrite find_indexes_passed by (assumption || lia).
  simpl. rewrite Heq.
  rewrite wrap_int_small by lia.
  unfold limit_indexes.
  destruct (Z.eqb_spec (Z.of_nat (length pre)) (-1)) as [Hm | _]; [lia |].
  rewrite Z.eqb_refl, at_index_middle. reflexivity.
Qed.

(** A first key greater than [x]: the first entry is read as it is. *)
Lemma interpolated_get_before (post : list A) (t : A) :
  double_gt D (key t) x = true ->
  interpolated_get D key get (t :: post) x = get t.
Proof.
  intros Hgt. unfold interpolated_get. simpl.
  destruct (double_eq D (key t) x); [reflexivity |].
  rewrite Hgt. reflexivity.
Qed.

(** No key equal to or greater than [x]: the last entry is read as it
    is. *)
Lemma interpolated_get_after (pre : list A) (t : A) :
  int_indexed (pre ++ [t]) ->
  forallb (passed D key x) (pre ++ [t]) = true ->
  interpolated_get D key get (pre ++ [t]) x = get t.
Proof.
  unfold int_indexed. intros Hlen Hall.
  assert (Hsize : Z.of_nat (length (pre ++ [t])) =
                  Z.of_nat (length pre) + 1).
  { rewrite length_app, Nat2Z.inj_add. reflexivity. }
  unfold interpolated_get.
  rewrite <- (app_nil_r (pre ++ [t])) at 1.
  rewrite find_indexes_passed by (assumption || lia).
  cbn [find_indexes].
  match goal with
  | |- context [limit_indexes (?l, -1)] =>
      replace l with (Z.of_nat (length pre))
  end.
  2: { destruct pre as [| p pre']; [reflexivity |].
       change ((p :: pre') ++ [t]) with (p :: (pre' ++ [t])) at 1.
       cbv iota. lia. }
  unfold limit_indexes.
  rewrite Z.eqb_refl.
  destruct (Z.eqb_spec (Z.of_nat (length pre)) (-1)) as [Hm | _]; [lia |].
  rewrite Z.eqb_refl, at_index_middle. reflexivity.
Qed.

(** A key greater than [x] right behind an entry the loop passes: the
    result is interpolated between the two entries. *)
Lemma interpolated_get_between (pre post : list A) (a b : A) :
  int_indexed (pre ++ a :: b :: post) ->
  forallb (passed D key x) (pre ++ [a]) = true ->
  double_eq D (key b) x = false ->
  double_gt D (key b) x = true ->
  interpolated_get D key get (pre ++ a :: b :: post) x =
  match get a, get b with
  | Some va, Some vb => Some (interpolation D x (key a) (key b) va vb)
  | _, _ => None
  end.
Proof.
  unfold int_indexed. intros Hlen Hall Heq Hgt.
  assert (Hshape : pre ++ a :: b :: post = (pre ++ [a]) ++ b :: post)
    by (rewrite <- app_assoc; reflexivity).
  assert (Hsize : Z.of_nat (length (pre ++ [a])) =
                  Z.of_nat (length pre) + 1).
  { rewrite length_app, Nat2Z.inj_add. reflexivity. }
  assert (Hbound : Z.of_nat (length pre) + 2 <= 2 ^ 31).
  { rewrite length_app in Hlen. simpl length in Hlen. lia. }
  unfold interpolated_get.
  rewrite Hshape.
  rewrite find_indexes_passed by (assumption || lia).
  cbn [find_indexes]. rewrite Heq, Hgt.
  rewrite wrap_int_small by lia.
  match goal with
  | |- context [limit_indexes (?l, _)] =>
      replace l with (Z.of_nat (length pre))
  end.
  2: { destruct pre as [| p pre']; [reflexivity |].
       change ((p :: pre') ++ [a]) with (p :: (pre' ++ [a])) at 1.
       cbv iota. lia. }
  rewrite Z.add_0_l.
  unfold limit_indexes.
  destruct (Z.eqb_spec (Z.of_nat (length (pre ++ [a]))) (-1))
    as [Hm | _]; [lia |].
  destruct (Z.eqb_spec (Z.of_nat (length pre)) (-1)) as [Hm | _]; [lia |].
  destruct (Z.eqb_spec (Z.of_nat (length (pre ++ [a])))
              (Z.of_nat (length pre))) as [Hm | _]; [lia |].
  rewrite at_index_middle.
  rewrite <- Hshape at 1. rewrite at_index_middle.
  unfold interpolation.
  destruct (get a), (get b); reflexivity.
Qed.

(** A vector is either passed as a whole or has a first entry at which the
    loop stops. *)
Lemma first_stop (tables : list A) :
  forallb (passed D key x) tables = true \/
  exists (pre post : list A) (t : A),
    tables = pre ++ t :: post /\
    forallb (passed D key x) pre = true /\
    passed D key x t = false.
Proof.
  induction tables as [| t tables IH]; [left; reflexivity |].
  destruct (passed D key x t) eqn:Ht.
  - destruct IH as [Hall | (pre & post & u & Heq & Hpre & Hu)].
    + left. simpl. rewrite Ht, Hall. reflexivity.
    + right. exists (t :: pre), post, u. subst tables. simpl.
      rewrite Ht, Hpre. repeat split; assumption.
  - right. exists [], tables, t. repeat split; assumption.
Qed.

Lemma nil_or_last (l : list A) :
  l = [] \/ exists (l' : list A) (a : A), l = l' ++ [a].
Proof.
  destruct l as [| a l]; [left; reflexivity | right].
  destruct (@exists_last A (a :: l)) as (l' & b & Heq); [discriminate |].
  exists l', b. exact Heq.
Qed.

(** With an entry in the vector and the lookup one level down defined on
    every entry, the lookup is defined. *)
Lemma interpolated_get_defined (tables : list A) :
  int_indexed tables ->
  tables <> [] ->
  Forall (fun t => get t <> None) tables ->
  interpolated_get D key get tables x <> None.
Proof.
  intros Hlen Hne Hget.
  destruct (first_stop tables) as [Hall | (pre & post & t & -> & Hpre & Ht)].
  - destruct (exists_last Hne) as (pre & t & ->).
    rewrite interpolated_get_after by assumption.
    apply Forall_app in Hget. destruct Hget as [_ Hget].
    inversion Hget. assumption.
  - assert (Hgt : get t <> None).
    { apply Forall_app in Hget. destruct Hget as [_ Hget].
      inversion Hget. assumption. }
    destruct (double_eq D (key t) x) eqn:Heq.
    + rewrite interpolated_get_equal by assumption. exact Hgt.
    + assert (Hgr : double_gt D (key t) x = true).
      { unfold passed in Ht. rewrite Heq in Ht. simpl in Ht.
        apply negb_false_iff in Ht. exact Ht. }
      destruct (nil_or_last pre) as [-> | (pre' & a & ->)].
      * simpl. rewrite interpolated_get_before by assumption. exact Hgt.
      * rewrite <- app_assoc. simpl.
        rewrite interpolated_get_between;
          [| rewrite <- app_assoc in Hlen; exact Hlen | assumption
           | assumption | assumption].
        assert (Hga : get a <> None).
        { apply Forall_app in Hget. destruct Hget as [Hget _].
          apply Forall_app in Hget. destruct Hget as [_ Hget].
          inversion Hget. assumption. }
        destruct (get a), (get t); congruence.
Qed.

End Lookup.

Section Tables.

Variable D : double_ops.

(** X13: When the temperature, the voltage or the frequency asked for equals a
    key of the table, behind keys that are neither equal to it nor greater,
    the lookup returns what that entry gives, without interpolation. *)
Theorem lookup_at_a_key :
  (forall (p : PowerLinearTable D) (pre post : list (PowerLinearTempTable D))
          (t : PowerLinearTempTable D) (temp volt frequency : double D),
     temp_tables p = pre ++ t :: post ->
     int_indexed (temp_tables p) ->
     forallb (passed D get_temp temp) pre = true ->
     double_eq D (get_temp t) temp = true ->
     PowerLinearTable_get D p temp volt frequency =
     PowerLinearTempTable_get D t volt frequency) /\
  (forall (t : PowerLinearTempTable D) (pre post : list (PowerLinearVoltTable D))
          (v : PowerLinearVoltTable D) (volt frequency : double D),
     volt_tables t = pre ++ v :: post ->
     int_indexed (volt_tables t) ->
     forallb (passed D get_volt volt) pre = true ->
     double_eq D (get_volt v) volt = true ->
     PowerLinearTempTable_get D t volt frequency =
     PowerLinearVoltTable_get D v frequency) /\
  (forall (v : PowerLinearVoltTable D) (pre post : list (PowerLinearFreqTable D))
          (f : PowerLinearFreqTable D) (frequency : double D),
     any v = None ->
     freq_tables v = pre ++ f :: post ->
     int_indexed (freq_tables v) ->
     forallb (passed D get_freq frequency) pre = true ->
     double_eq D (get_freq f) frequency = true ->
     PowerLinearVoltTable_get D v frequency = Some (freq_value f)).
Proof.
  split; [| split].
  - intros p pre post t temp volt frequency Hshape Hlen Hpre Heq.
    unfold PowerLinearTable_get. rewrite Hshape in *.
    apply interpolated_get_equal; assumption.
  - intros t pre post v volt frequency Hshape Hlen Hpre Heq.
    unfold PowerLinearTempTable_get. rewrite Hshape in *.
    apply interpolated_get_equal; assumption.
  - intros v pre post f frequency Hany Hshape Hlen Hpre Heq.
    unfold PowerLinearVoltTable_get. rewrite Hany, Hshape in *.
    rewrite interpolated_get_equal by assumption. reflexivity.
Qed.

(** X14: Below the range of a table there is no extrapolation: when the first
    key is greater than the temperature, the voltage or the frequency asked
    for, the lookup returns what the first entry gives. *)
Theorem lookup_below_range :
  (forall (p : PowerLinearTable D) (post : list (PowerLinearTempTable D))
          (t : PowerLinearTempTable D) (temp volt frequency : double D),
     temp_tables p = t :: post ->
     double_gt D (get_temp t) temp = true ->
     PowerLinearTable_get D p temp volt frequency =
     PowerLinearTempTable_get D t volt frequency) /\
  (forall (t : PowerLinearTempTable D) (post : list (PowerLinearVoltTable D))
          (v : PowerLinearVoltTable D) (volt frequency : double D),
     volt_tables t = v :: post ->
     double_gt D (get_volt v) volt = true ->
     PowerLinearTempTable_get D t volt frequency =
     PowerLinearVoltTable_get D v frequency) /\
  (forall (v : PowerLinearVoltTable D) (post : list (PowerLinearFreqTable D))
          (f : PowerLinearFreqTable D) (frequency : double D),
     any v = None ->
     freq_tables v = f :: post ->
     double_gt D (get_freq f) frequency = true ->
     PowerLinearVoltTable_get D v frequency = Some (freq_value f)).
Proof.
  split; [| split].
  - intros p post t temp volt frequency Hshape Hgt.
    unfold PowerLinearTable_get. rewrite Hshape.
    apply interpolated_get_before; assumption.
  - intros t post v volt frequency Hshape Hgt.
    unfold PowerLinearTempTable_get. rewrite Hshape.
    apply interpolated_get_before; assumption.
  - intros v post f frequency Hany Hshape Hgt.
    unfold PowerLinearVoltTable_get. rewrite Hany, Hshape.
    rewrite interpolated_get_before by assumption. reflexivity.
Qed.

(** X15: Above the range of a table there is no extrapolation either: when no
    key equals or is greater than the temperature, the voltage or the
    frequency asked for, the lookup returns what the last entry gives. *)
Theorem lookup_above_range :
  (forall (p : PowerLinearTable D) (pre : list (PowerLinearTempTable D))
          (t : PowerLinearTempTable D) (temp volt frequency : double D),
     temp_tables p = pre ++ [t] ->
     int_indexed (temp_tables p) ->
     forallb (passed D get_temp temp) (temp_tables p) = true ->
     PowerLinearTable_get D p temp volt frequency =
     PowerLinearTempTable_get D t volt frequency) /\
  (forall (t : PowerLinearTempTable D) (pre : list (PowerLinearVoltTable D))
          (v : PowerLinearVoltTable D) (volt frequency : double D),
     volt_tables t = pre ++ [v] ->
     int_indexed (volt_tables t) ->
     forallb (passed D get_volt volt) (volt_tables t) = true ->
     PowerLinearTempTable_get D t volt frequency =
     PowerLinearVoltTable_get D v frequency) /\
  (forall (v : PowerLinearVoltTable D) (pre : list (PowerLinearFreqTable D))
          (f : PowerLinearFreqTable D) (frequency : double D),
     any v = None ->
     freq_tables v = pre ++ [f] ->
     int_indexed (freq_tables v) ->
     forallb (passed D get_freq frequency) (freq_tables v) = true ->
     PowerLinearVoltTable_get D v frequency = Some (freq_value f)).
Proof.
  split; [| split].
  - intros p pre t temp volt frequency Hshape Hlen Hall.
    unfold PowerLinearTable_get. rewrite Hshape in *.
    apply interpolated_get_after; assumption.
  - intros t pre v volt frequency Hshape Hlen Hall.
    unfold PowerLinearTempTable_get. rewrite Hshape in *.
    apply interpolated_get_after; assumption.
  - intros v pre f frequency Hany Hshape Hlen Hall.
    unfold PowerLinearVoltTable_get. rewrite Hany, Hshape in *.
    rewrite interpolated_get_after by assumption. reflexivity.
Qed.

(** X16: Inside the range the lookup interpolates between the two entries
    around the temperature, the voltage or the frequency asked for: the
    last entry whose key is neither equal nor greater and the entry right
    behind it, whose key is greater.  The value is
    [(high_value - low_value) * ((x - low) / (high - low)) + low_value]. *)
Theorem lookup_between_keys :
  (forall (p : PowerLinearTable D) (pre post : list (PowerLinearTempTable D))
          (a b : PowerLinearTempTable D) (temp volt frequency : double D),
     temp_tables p = pre ++ a :: b :: post ->
     int_indexed (temp_tables p) ->
     forallb (passed D get_temp temp) (pre ++ [a]) = true ->
     double_eq D (get_temp b) temp = false ->
     double_gt D (get_temp b) temp = true ->
     PowerLinearTable_get D p temp volt frequency =
     match PowerLinearTempTable_get D a volt frequency,
           PowerLinearTempTable_get D b volt frequency with
     | Some va, Some vb =>
         Some (interpolation D temp (get_temp a) (get_temp b) va vb)
     | _, _ => None
     end) /\
  (forall (t : PowerLinearTempTable D) (pre post : list (PowerLinearVoltTable D))
          (a b : PowerLinearVoltTable D) (volt frequency : double D),
     volt_tables t = pre ++ a :: b :: post ->
     int_indexed (volt_tables t) ->
     forallb (passed D get_volt volt) (pre ++ [a]) = true ->
     double_eq D (get_volt b) volt = false ->
     double_gt D (get_volt b) volt = true ->
     PowerLinearTempTable_get D t volt frequency =
     match PowerLinearVoltTable_get D a frequency,
           PowerLinearVoltTable_get D b frequency with
     | Some va, Some vb =>
         Some (interpolation D volt (get_volt a) (get_volt b) va vb)
     | _, _ => None
     end) /\
  (forall (v : PowerLinearVoltTable D) (pre post : list (PowerLinearFreqTable D))
          (a b : PowerLinearFreqTable D) (frequency : double D),
     any v = None ->
     freq_tables v = pre ++ a :: b :: post ->
     int_indexed (freq_tables v) ->
     forallb (passed D get_freq frequency) (pre ++ [a]) = true ->
     double_eq D (get_freq b) frequency = false ->
     double_gt D (get_freq b) frequency = true ->
     PowerLinearVoltTable_get D v frequency =
     Some (interpolation D frequency (get_freq a) (get_freq b)
                         (freq_value a) (freq_value b))).
Proof.
  split; [| split].
  - intros p pre post a b temp volt frequency Hshape Hlen Hpre Heq Hgt.
    unfold PowerLinearTable_get. rewrite Hshape in *.
    apply interpolated_get_between; assumption.
  - intros t pre post a b volt frequency Hshape Hlen Hpre Heq Hgt.
    unfold PowerLinearTempTable_get. rewrite Hshape in *.
    apply interpolated_get_between; assumption.
  - intros v pre post a b frequency Hany Hshape Hlen Hpre Heq Hgt.
    unfold PowerLinearVoltTable_get. rewrite Hany, Hshape in *.
    rewrite interpolated_get_between by assumption. reflexivity.
Qed.

Lemma volt_table_defined (v : PowerLinearVoltTable D) (frequency : double D) :
  volt_table_filled D v ->
  PowerLinearVoltTable_get D v frequency <> None.
Proof.
  intros [Hlen Hne]. unfold PowerLinearVoltTable_get.
  destruct (any v) as [a |]; [discriminate |].
  apply interpolated_get_defined; [assumption | auto |].
  apply Forall_forall. intros f _. discriminate.
Qed.

Lemma temp_table_defined (t : PowerLinearTempTable D)
    (volt frequency : double D) :
  temp_table_filled D t ->
  PowerLinearTempTable_get D t volt frequency <> None.
Proof.
  intros (Hlen & Hne & Hall). unfold PowerLinearTempTable_get.
  apply interpolated_get_defined; [assumption | assumption |].
  eapply Forall_impl; [| exact Hall].
  intros v Hv. apply volt_table_defined. exact Hv.
Qed.

(** X17: A lookup in a table that has an entry at every level, where a voltage
    table with an [any] entry needs no frequency entry, reads inside its
    vectors and returns a value, whatever is asked for.  A lookup in a
    table without a temperature entry, in a temperature table without a
    voltage entry, or in a voltage table with neither an [any] entry nor a
    frequency entry indexes an empty vector. *)
Theorem lookup_defined :
  (forall (p : PowerLinearTable D) (temp volt frequency : double D),
     power_table_filled D p ->
     exists value : double D,
       PowerLinearTable_get D p temp volt frequency = Some value) /\
  (forall temp volt frequency : double D,
     PowerLinearTable_get D (mkPowerTable D []) temp volt frequency = None) /\
  (forall key volt frequency : double D,
     PowerLinearTempTable_get D (mkTempTable D key []) volt frequency =
     None) /\
  (forall key frequency : double D,
     PowerLinearVoltTable_get D (mkVoltTable D key None []) frequency =
     None).
Proof.
  split; [| repeat split].
  intros p temp volt frequency (Hlen & Hne & Hall).
  assert (Hdef : PowerLinearTable_get D p temp volt frequency <> None).
  { unfold PowerLinearTable_get.
    apply interpolated_get_defined; [assumption | assumption |].
    eapply Forall_impl; [| exact Hall].
    intros t Ht. apply temp_table_defined. exact Ht. }
  destruct (PowerLinearTable_get D p temp volt frequency) as [value |];
    [exists value; reflexivity | contradiction].
Qed.

End Tables.

Section FrequencyEntries.

Variable D : double_ops.

(** The lookup reads the level below only at entries of the vector. *)
Lemma interpolated_get_ext (A : Type) (key : A -> double D)
    (get1 get2 : A -> option (double D)) (tables : list A) (x : double D) :
  (forall t : A, In t tables -> get1 t = get2 t) ->
  interpolated_get D key get1 tables x = interpolated_get D key get2 tables x.
Proof.
  intros Hsame. unfold interpolated_get.
  assert (Hat : forall (i : Z) (t : A),
            at_index tables i = Some t -> get1 t = get2 t).
  { intros i t Ht. apply Hsame. unfold at_index in Ht.
    destruct (i <? 0); [discriminate |].
    eapply nth_error_In. exact Ht. }
  destruct (limit_indexes (find_indexes D key tables x 0 (-1)))
    as [low_index high_index].
  destruct (high_index =? low_index).
  - destruct (at_index tables low_index) as [t |] eqn:Ht; [| reflexivity].
    exact (Hat _ _ Ht).
  - destruct (at_index tables low_index) as [tl |] eqn:Hl; [| reflexivity].
    destruct (at_index tables high_index) as [th |] eqn:Hh; [| reflexivity].
    rewrite (Hat _ _ Hl), (Hat _ _ Hh). reflexivity.
Qed.

(** X18: When every voltage table has an [any] entry, the power does not depend
    on the frequency asked for, whatever frequency entries the tables
    have. *)
Theorem any_entry_ignores_frequency (p : PowerLinearTable D)
    (temp volt frequency frequency' : double D) :
  Forall (fun t => Forall (fun v => any v <> None) (volt_tables t))
         (temp_tables p) ->
  PowerLinearTable_get D p temp volt frequency =
  PowerLinearTable_get D p temp volt frequency'.
Proof.
  intros Hany. unfold PowerLinearTable_get.
  apply interpolated_get_ext. intros t Ht.
  rewrite Forall_forall in Hany. specialize (Hany t Ht).
  unfold PowerLinearTempTable_get.
  apply interpolated_get_ext. intros v Hv.
  rewrite Forall_forall in Hany. specialize (Hany v Hv).
  unfold PowerLinearVoltTable_get.
  destruct (any v); [reflexivity | contradiction].
Qed.

End FrequencyEntries.

(** * Properties of the energy of a component *)

Section Energy.

Variable D : double_ops.
Variable power_trace : Type.
Variable get_energy : power_trace -> double D * double D.

(** X19: The energy of a component and of all components below it is summed
    trace by trace onto the values the caller passes in, which are not
    cleared: first the traces of the component in the order they were
    registered, then those of each child in turn, a child before its own
    children.  From the children alone, the traces of the component itself
    are left out. *)
Theorem energy_in_preorder :
  forall (c : component power_trace) (acc : double D * double D),
    power_get_energy_from_self_and_childs D power_trace get_energy c acc =
      fold_left (account_trace D power_trace get_energy)
                (all_traces power_trace c) acc /\
    power_get_energy_from_childs D power_trace get_energy c acc =
      fold_left (account_trace D power_trace get_energy)
                (flat_map (all_traces power_trace) (get_childs power_trace c))
                acc.
Proof.
  fix IH 1. intros [traces childs] acc.
  assert (Hchilds : forall a : double D * double D,
    fold_left
      (fun acc x =>
         power_get_energy_from_self_and_childs D power_trace get_energy x acc)
      childs a =
    fold_left (account_trace D power_trace get_energy)
              (flat_map (all_traces power_trace) childs) a).
  { induction childs as [| c childs IHchilds]; intros a; [reflexivity |].
    simpl. rewrite fold_left_app.
    rewrite (proj1 (IH c a)). apply IHchilds. }
  split.
  - simpl. rewrite fold_left_app. apply Hchilds.
  - unfold power_get_energy_from_childs. simpl. apply Hchilds.
Qed.

End Energy.

(** * The further properties on concrete inputs *)

Lemma rv32_granule_smaller : 0 <= granule_log2 rv32 < ISS_REG_WIDTH rv32.
Proof. simpl. lia. Defined.

(** Four bytes at address 6 do not fit in the two bytes left of the
    granule; four bytes at address 8 fit. *)
Lemma data_req_route_witness :
  data_req rv32 (reply_ok 0) 6 100 4 false iss0 =
    data_misaligned_req rv32 (reply_ok 0) 6 100 4 false iss0 /\
  fst (data_req rv32 (reply_ok 0) 6 100 4 false iss0) = IO_REQ_PENDING /\
  data_req rv32 (reply_ok 0) 8 100 4 false iss0 =
    data_req_aligned rv32 (reply_ok 0) 8 100 4 false iss0.
Proof.
  assert (Hsize : 0 < 4 <= granule rv32) by (unfold granule; simpl; lia).
  split; [| split].
  - refine (data_req_route rv32 rv32_granule_smaller (reply_ok 0) 6 100 4
              false iss0 _ Hsize).
    simpl. lia.
  - reflexivity.
  - refine (data_req_route rv32 rv32_granule_smaller (reply_ok 0) 8 100 4
              false iss0 _ Hsize).
    simpl. lia.
Defined.

(** A halfword at address 6. *)
Lemma data_req_naturally_aligned_witness :
  data_req rv32 (reply_ok 0) 6 100 (2 ^ 1) false iss0 =
  data_req_aligned rv32 (reply_ok 0) 6 100 (2 ^ 1) false iss0.
Proof.
  refine (data_req_naturally_aligned rv32 rv32_granule_smaller (reply_ok 0)
            6 100 1 false iss0 _ _ _).
  - simpl. lia.
  - simpl. lia.
  - reflexivity.
Defined.

(** The second half of a store split at address 4, answered at once with a
    latency of two cycles. *)
Lemma exec_misaligned_outcomes_witness :
  let s1 := snd (data_req rv32 (reply_ok 0) 3 100 4 true iss0) in
  let s' := exec_misaligned rv32 (reply_ok 2) s1 in
  requests s' =
    DataReq (filled_request rv32 s1 4 101 3 true) :: requests s1 /\
  pending_access (lsu s') = (3, 101, 4, true) /\
  timing_log s' =
    [TimingStallLoadAccount 2; TimingCycleAccount; TimingEventLoadAccount 1;
     TimingEventMisalignedAccount 1] /\
  trace_dump_trace_enabled s' = true /\
  callback_calls s' = [StallCallbackCall cb_load_resume] /\
  terminations s' = [ExecInsnTerminate] /\
  hd_error (pipeline_log s') = Some ExecSwitchToFullMode /\
  diagnostics s' = [].
Proof.
  refine (exec_misaligned_outcomes rv32 (reply_ok 2)
            (snd (data_req rv32 (reply_ok 0) 3 100 4 true iss0)) _).
  simpl. lia.
Defined.

(** A store of four bytes at address 3: one byte at 3, three bytes at 4. *)
Lemma split_requests_tile_witness :
  let s1 := snd (data_req rv32 (reply_ok 0) 3 100 4 true iss0) in
  let s2 := exec_misaligned rv32 (reply_ok 0) s1 in
  exists q1 q2 : vp_io_req,
    requests s2 = DataReq q2 :: DataReq q1 :: requests iss0 /\
    req_addr q1 = 3 /\ req_data q1 = 100 /\
    req_is_write q1 = true /\ 0 < req_size q1 /\
    req_addr q2 = wrap_addr rv32 (3 + req_size q1) /\
    req_data q2 = 100 + req_size q1 /\
    req_is_write q2 = true /\ 0 < req_size q2 /\
    req_size q1 + req_size q2 = 4.
Proof.
  refine (split_requests_tile rv32 rv32_granule_fits (reply_ok 0) (reply_ok 0)
            3 100 4 true iss0 _ _ _ _ _).
  - simpl. lia.
  - unfold granule. simpl. lia.
  - simpl. lia.
  - reflexivity.
  - reflexivity.
Defined.

(** The sign-extending action on a halfword in register 5 leaves register 6
    alone. *)
Lemma resume_action_effect_witness :
  let s := set_reg 5 0x8001
             (set_lsu (fun l => set_stall_size 2 (set_stall_reg 5
                         (set_stall_callback cb_load_signed_resume l)))
                      iss0) in
  let s' := call_stall_callback rv32 s in
  regfile s' 6 = regfile s 6 /\
  regfile s' 5 = 0xffff8001 /\
  terminations s' = [ExecInsnTerminate].
Proof.
  pose (s := set_reg 5 0x8001
               (set_lsu (fun l => set_stall_size 2 (set_stall_reg 5
                           (set_stall_callback cb_load_signed_resume l)))
                        iss0)).
  destruct (resume_action_effect rv32 s)
    as (Hterm & _ & _ & _ & Hother & _ & Hreg & _).
  split; [| split].
  - apply Hother. simpl. lia.
  - exact Hreg.
  - exact Hterm.
Defined.

(** An atomic swap of four bytes on a core whose translator maps every
    address to itself. *)
Lemma atomic_request_witness :
  let s' := atomic rv32 reply_pending 16 4 4 5 4 iss0 in
  let q := filled_atomic_request rv32 iss0 16 4 4 5 4 in
  requests s' = [DataReq q] /\
  req_addr q = 16 /\ req_size q = 4 /\ req_opcode q = 4 /\
  req_data q = 16 /\ req_second_data q = 20 /\ req_initiator q = 0 /\
  pending_access (lsu s') = (0, 0, 0, false) /\
  elw_stalled (lsu s') = false /\
  holds s' = [] /\
  callback_calls s' = [].
Proof.
  exact (atomic_request rv32 reply_pending 16 4 4 5 4 iss0 eq_refl).
Defined.

(** A rejected atomic swap. *)
Lemma atomic_immediate_outcomes_witness :
  let s' := atomic rv32 reply_invalid 16 4 4 5 4 iss0 in
  diagnostics s' = [WarningAlways (InvalidAtomicAccess 0x1c000080 16 4 4)] /\
  timing_log s' = [] /\
  pipeline_log s' = [] /\
  stall_callback (lsu s') = cb_load_resume /\
  stall_reg (lsu s') = 0 /\
  stall_size (lsu s') = 0 /\
  regfile s' = regfile iss0.
Proof.
  refine (atomic_immediate_outcomes rv32 reply_invalid 16 4 4 5 4 iss0
            eq_refl _).
  simpl. lia.
Defined.

(** An aligned load and its response, then an atomic swap, on an LSU whose
    remaining size is 3. *)
Lemma remaining_size_writers_witness :
  exists w' : world,
    run rv32 [DoDataReq reply_pending 8 100 4 false;
              DoDataResponse (fun rf => rf) 5;
              DoAtomic (reply_ok 0) 16 4 4 5 4]
        (mkWorld Idle (set_lsu (set_misaligned_size 3) iss0)) = Some w' /\
    misaligned_size (lsu (iss w')) = 3.
Proof.
  eexists. split; [reflexivity |].
  exact (remaining_size_writers rv32
           [DoDataReq reply_pending 8 100 4 false;
            DoDataResponse (fun rf => rf) 5;
            DoAtomic (reply_ok 0) 16 4 4 5 4]
           (mkWorld Idle (set_lsu (set_misaligned_size 3) iss0)) _
           eq_refl eq_refl).
Defined.

Lemma stale_size_blocks_resume_witness :
  exists w' : world,
    run rv32 [DoDataReq reply_pending 8 100 4 false;
              DoDataResponse (fun rf => rf) 5;
              DoAtomic reply_pending 16 4 4 5 4;
              DoDataResponse (returns_in 5 7) 9]
        (mkWorld Idle (set_lsu (set_misaligned_size 3) iss0)) = Some w' /\
    callback_calls (iss w') = [] /\
    terminations (iss w') = [].
Proof.
  eexists. split; [reflexivity |].
  refine (stale_size_blocks_resume rv32
            [DoDataReq reply_pending 8 100 4 false;
             DoDataResponse (fun rf => rf) 5;
             DoAtomic reply_pending 16 4 4 5 4;
             DoDataResponse (returns_in 5 7) 9]
            (mkWorld Idle (set_lsu (set_misaligned_size 3) iss0)) _
            eq_refl eq_refl _ _).
  - discriminate.
  - discriminate.
Defined.

(** The same load after an active reset of that LSU. *)
Lemma reset_then_pending_resumes_witness :
  exists w' : world,
    run rv32 [DoReset true; DoDataReq reply_pending 8 100 4 false;
              DoDataResponse (fun rf => rf) 5]
        (mkWorld Idle (set_lsu (set_misaligned_size 3) iss0)) = Some w' /\
    phase w' = Idle /\
    callback_calls (iss w') = [StallCallbackCall cb_load_resume] /\
    terminations (iss w') = [ExecInsnTerminate].
Proof.
  exact (reset_then_pending_resumes rv32 reply_pending 8 100 4 false
           (set_lsu (set_misaligned_size 3) iss0) (fun rf => rf) 5
           eq_refl eq_refl).
Defined.

Lemma int_indexed_small (A : Type) (v : list A) :
  (length v <= 8)%nat -> int_indexed v.
Proof. unfold int_indexed. intros Hlen. simpl. lia. Defined.

(** The leakage at 85 degrees and 1.2 V, and the dynamic power at
    200 MHz. *)
Lemma lookup_at_a_key_witness :
  PowerLinearTable_get Z_ops leakage_table 85 1200 0 = Some 1000 /\
  PowerLinearVoltTable_get Z_ops dynamic_volt 200 = Some 90.
Proof.
  destruct (lookup_at_a_key Z_ops) as (Htemp & _ & Hfreq).
  split.
  - refine (Htemp leakage_table
              [mkTempTable Z_ops 25 [leakage_volt 800 100; leakage_volt 1200 300]]
              []
              (mkTempTable Z_ops 85 [leakage_volt 800 400; leakage_volt 1200 1000])
              85 1200 0 eq_refl _ eq_refl eq_refl).
    apply int_indexed_small. simpl. lia.
  - refine (Hfreq dynamic_volt [mkFreqTable Z_ops 100 50]
              [mkFreqTable Z_ops 400 210] (mkFreqTable Z_ops 200 90) 200
              eq_refl eq_refl _ eq_refl eq_refl).
    apply int_indexed_small. simpl. lia.
Defined.

(** The dynamic power asked for at 50 MHz and at 800 MHz. *)
Lemma lookup_below_range_witness :
  PowerLinearVoltTable_get Z_ops dynamic_volt 50 = Some 50.
Proof.
  exact (proj2 (proj2 (lookup_below_range Z_ops)) dynamic_volt
           [mkFreqTable Z_ops 200 90; mkFreqTable Z_ops 400 210]
           (mkFreqTable Z_ops 100 50) 50 eq_refl eq_refl eq_refl).
Defined.

Lemma lookup_above_range_witness :
  PowerLinearVoltTable_get Z_ops dynamic_volt 800 = Some 210.
Proof.
  refine (proj2 (proj2 (lookup_above_range Z_ops)) dynamic_volt
            [mkFreqTable Z_ops 100 50; mkFreqTable Z_ops 200 90]
            (mkFreqTable Z_ops 400 210) 800 eq_refl eq_refl _ eq_refl).
  apply int_indexed_small. simpl. lia.
Defined.

(** The dynamic power asked for at 300 MHz, between the entries at 200 and
    at 400 MHz. *)
Lemma lookup_between_keys_witness :
  PowerLinearVoltTable_get Z_ops dynamic_volt 300 =
  Some (interpolation Z_ops 300 200 400 90 210).
Proof.
  refine (proj2 (proj2 (lookup_between_keys Z_ops)) dynamic_volt
            [mkFreqTable Z_ops 100 50] []
            (mkFreqTable Z_ops 200 90) (mkFreqTable Z_ops 400 210) 300
            eq_refl eq_refl _ eq_refl eq_refl eq_refl).
  apply int_indexed_small. simpl. lia.
Defined.

Lemma leakage_table_filled : power_table_filled Z_ops leakage_table.
Proof.
  assert (Hvolt : forall volt power : Z,
            volt_table_filled Z_ops (leakage_volt volt power)).
  { intros volt power. split; [apply int_indexed_small; simpl; lia |].
    discriminate. }
  split; [apply int_indexed_small; simpl; lia |].
  split; [discriminate |].
  repeat constructor; try (apply int_indexed_small; simpl; lia);
    try discriminate; apply Hvolt.
Defined.

Lemma lookup_defined_witness :
  exists value : Z,
    PowerLinearTable_get Z_ops leakage_table 40 1000 0 = Some value.
Proof.
  exact (proj1 (lookup_defined Z_ops) leakage_table 40 1000 0
           leakage_table_filled).
Defined.

Lemma any_entry_ignores_frequency_witness :
  PowerLinearTable_get Z_ops leakage_table 40 1000 100 =
  PowerLinearTable_get Z_ops leakage_table 40 1000 400.
Proof.
  refine (any_entry_ignores_frequency Z_ops leakage_table 40 1000 100 400 _).
  repeat constructor; discriminate.
Defined.

(** C7 on the code.  An atomic add of two bytes is accepted but not
    complete, and its response returns [0x8001] in register 5.  Right after
    a reset the response runs the sign-extending action and the register
    holds [0xffff8001].  After a store split at address 4 has completed,
    the remaining size is still 3: the same response runs no resume action,
    although the sign-extending one is selected for register 5 at two
    bytes, the instruction is not terminated and the register holds the
    value as returned. *)
Theorem atomic_pending_not_extended :
  option_map (fun w => (regfile (iss w) 5, callback_calls (iss w)))
    (run rv32 [DoReset true;
               DoAtomic reply_pending 16 2 4 5 5;
               DoDataResponse (returns_in 5 0x8001) 3] (mkWorld Idle iss0)) =
    Some (0xffff8001, [StallCallbackCall cb_load_signed_resume]) /\
  option_map
    (fun w => (regfile (iss w) 5, callback_calls (iss w),
               (stall_callback (lsu (iss w)), stall_reg (lsu (iss w)),
                stall_size (lsu (iss w))),
               (misaligned_size (lsu (iss w)), phase w)))
    (run rv32 [DoReset true;
               DoDataReq (reply_ok 0) 3 100 4 true;
               DoExecMisaligned (reply_ok 0);
               DoAtomic reply_pending 16 2 4 5 5;
               DoDataResponse (returns_in 5 0x8001) 3] (mkWorld Idle iss0)) =
    Some (0x8001, [StallCallbackCall cb_load_resume],
          (cb_load_signed_resume, 5, 2), (3, Idle)).
Proof. vm_compute. split; reflexivity. Qed.
